(** * Progress listeners of the F# language-server client

    A shallow embedding of [src/client/extension.ts]: the anonymous
    [progressListener] class built by [createProgressListener], the three
    notification handlers wired to it, and the two listeners created by
    [createProgressListeners].

    Numbers.  A JavaScript number is an IEEE-754 binary64 value.  The
    fields [countChecked] and [nFiles] hold integer counts and are
    modelled as [Z]: a double holds every integer up to [2^53] exactly,
    and [countChecked++] is exact as long as its result is at most [2^53].
    The arithmetic of [percentComplete], where fractions appear, is
    carried out in binary64 with the operations of the standard library's
    [SpecFloat] ([prec = 53], [emax = 1024]): the counts are converted to
    doubles, divided, multiplied by 100 and floored, each operation
    rounding to nearest, ties to even.

    The second half of the file relates these operations to one rounding
    function on rationals, from which the properties of the percentage
    follow. *)

From Stdlib Require Import ZArith QArith Qround Qpower.
From Stdlib Require Import List String Bool Lia Lqa.
From Stdlib Require Import DecimalString SpecFloat.
From Stdlib Require DecimalPos DecimalZ.
Import ListNotations.
Open Scope Z_scope.

(* ================================================================== *)
(** * Part I: the embedding                                            *)
(* ================================================================== *)

(** ** JavaScript numbers (binary64) *)

Definition prec : Z := 53.
Definition emax : Z := 1024.

(** [Number.MAX_SAFE_INTEGER] *)
Definition MAX_SAFE_INTEGER : Z := 2 ^ 53 - 1.

(** The double nearest to an integer (ties to even). *)
Definition Z2SF (z : Z) : spec_float := binary_normalize prec emax z 0 false.

Definition js_div : spec_float -> spec_float -> spec_float := SFdiv prec emax.
Definition js_mul : spec_float -> spec_float -> spec_float := SFmul prec emax.

(** [Math.floor].  The result of [Math.floor] on a finite double is an
    integer, returned here as [Some z]; on [NaN] and the infinities
    [Math.floor] returns its argument, which is no integer: [None]. *)
Definition Math_floor (x : spec_float) : option Z :=
  match x with
  | S754_zero _ => Some 0
  | S754_finite s m e => Some (Z.shiftl (cond_Zopp s (Zpos m)) e)
  | S754_infinity _ | S754_nan => None
  end.

(** [newPercent - oldPercent] on two results of [Math.floor]: the
    difference of two integers (the subtraction of two integer-valued
    doubles is exact whenever the difference is a double, as it is for
    integers between 0 and [2^53]), and not a finite number as soon as
    one side is not. *)
Definition js_sub (a b : option Z) : option Z :=
  match a, b with
  | Some x, Some y => Some (x - y)
  | _, _ => None
  end.

(** ** The host: [window.withProgress] and the promise of each run

    [window.withProgress (options, task)] opens a progress notification,
    calls [task] at once with a new [Progress] object, and keeps the
    notification open until the promise returned by [task] is settled.
    The task of [startCheckFiles] returns [new Promise (executor)], whose
    executor runs at once as well.  A [handle] names the [Progress] object
    and the promise of one call.  Calling the promise's [resolve] function
    for the first time settles the promise and the host closes the
    notification (recorded as [Release], at the call); later calls of the
    same function do nothing.

    [pending] is the set of open notifications, [log] the trace of what
    the listeners did to the host, oldest first. *)

Definition handle := nat.

Inductive effect : Type :=
| Acquire (h : handle) (title : string) (location : Z)
| Report (h : handle) (message : string) (increment : option Z)
| CallResolve (h : handle)
| Release (h : handle).

Record host : Type := mkHost {
  next : handle;
  pending : list handle;
  log : list effect
}.

Definition host0 : host := mkHost 0%nat [] [].

Definition emit (e : effect) (u : host) : host :=
  mkHost (next u) (pending u) (log u ++ [e]).

Definition withProgress (title : string) (location : Z) (u : host) : handle * host :=
  (next u, mkHost (S (next u)) (next u :: pending u)
                  (log u ++ [Acquire (next u) title location])).

Fixpoint mem (h : handle) (l : list handle) : bool :=
  match l with
  | [] => false
  | x :: l' => Nat.eqb h x || mem h l'
  end.

Fixpoint remove_handle (h : handle) (l : list handle) : list handle :=
  match l with
  | [] => []
  | x :: l' => if Nat.eqb h x then remove_handle h l' else x :: remove_handle h l'
  end.

Definition call_resolve (h : handle) (u : host) : host :=
  if mem h (pending u)
  then mkHost (next u) (remove_handle h (pending u)) (log u ++ [CallResolve h; Release h])
  else emit (CallResolve h) u.

(** ** [EventNames] and the two descriptors *)

Record EventNames : Type := mkEventNames {
  startEvent : string;
  incrementEvent : string;
  endEvent : string;
  title : Z -> string
}.

(** Template-literal conversion of an integer-valued number (decimal
    digits, for integers below [10^21]). *)
Definition string_of_Z (n : Z) : string := NilZero.string_of_int (Z.to_int n).

Definition checkEvent : EventNames :=
  mkEventNames "fsharp/startCheckFiles" "fsharp/checkFile" "fsharp/endCheckFiles"
               (fun nFiles => "Check " ++ string_of_Z nFiles ++ " files")%string.

Definition analyzeEvent : EventNames :=
  mkEventNames "fsharp/startAnalyzeProjects" "fsharp/analyzeProject" "fsharp/endAnalyzeProjects"
               (fun nFiles => "Analyze " ++ string_of_Z nFiles ++ " projects")%string.

(** ** The [progressListener] object

    [progress] and [resolve] are declared without initialiser: they are
    [undefined] until [startCheckFiles] assigns them.  The code only tests
    [progress] with [!= null], which [undefined] and [null] both fail, so
    one [None] stands for both. *)

Record progressListener : Type := mkListener {
  countChecked : Z;
  nFiles : Z;
  progress : option handle;
  resolve : option handle
}.

Definition new_progressListener : progressListener := mkListener 0 0 None None.

Inductive error : Type := TypeError (what : string).
Inductive completion : Type := Normal | Throw (e : error).

Definition outcome : Type := (progressListener * host * completion)%type.

(** [startCheckFiles]: [names.title(nFiles)] is evaluated, [withProgress]
    calls the task with a fresh [Progress] object, and the executor of the
    new promise assigns the four fields. *)
Definition startCheckFiles (names : EventNames) (n : Z)
    (this : progressListener) (u : host) : outcome :=
  let '(h, u') := withProgress (title names n) 15 u in
  (mkListener 0 n (Some h) (Some h), u', Normal).

(** [Math.floor(this.countChecked / (this.nFiles + 1) * 100)].  The sum
    [this.nFiles + 1] of two doubles is the double nearest to the exact
    sum, which is what [Z2SF] returns. *)
Definition percentComplete (this : progressListener) : option Z :=
  Math_floor (js_mul (js_div (Z2SF (countChecked this)) (Z2SF (nFiles this + 1)))
                     (Z2SF 100)).

Definition checkFile (fileName : string) (this : progressListener) (u : host) : outcome :=
  match progress this with
  | Some p =>
      let oldPercent := percentComplete this in
      let this' := mkListener (countChecked this + 1) (nFiles this)
                              (progress this) (resolve this) in
      let newPercent := percentComplete this' in
      (this', emit (Report p fileName (js_sub newPercent oldPercent)) u, Normal)
  | None => (this, u, Normal)
  end.

(** [endCheckFiles]: the three assignments come first, the call of
    [this.resolve] last; calling [undefined] throws a [TypeError]. *)
Definition endCheckFiles (this : progressListener) (u : host) : outcome :=
  let this' := mkListener 0 0 None (resolve this) in
  match resolve this with
  | Some r => (this', call_resolve r u, Normal)
  | None => (this', u, Throw (TypeError "this.resolve is not a function"))
  end.

(** ** The client: notification handlers

    The three arrow functions passed to [client.onNotification] close over
    one listener object; a [handler] records which object and which method.
    The objects live in [heap], in order of creation. *)

Inductive handler : Type :=
| OnStart (names : EventNames) (obj : nat)
| OnIncrement (obj : nat)
| OnEnd (obj : nat).

Inductive payload : Type :=
| PNumber (n : Z)
| PString (s : string)
| PNone.

Record world : Type := mkWorld {
  heap : list progressListener;
  handlers : list (string * handler);
  ui : host
}.

Definition world0 : world := mkWorld [] [] host0.

Fixpoint lookup (method : string) (hs : list (string * handler)) : option handler :=
  match hs with
  | [] => None
  | (m, h) :: hs' => if String.eqb method m then Some h else lookup method hs'
  end.

Fixpoint update (i : nat) (x : progressListener) (l : list progressListener)
  : list progressListener :=
  match l, i with
  | [], _ => []
  | _ :: l', O => x :: l'
  | y :: l', S i' => y :: update i' x l'
  end.

(** A later registration for the same method replaces the earlier one. *)
Definition onNotification (method : string) (h : handler) (w : world) : world :=
  mkWorld (heap w) ((method, h) :: handlers w) (ui w).

Definition createProgressListener (names : EventNames) (w : world) : world :=
  let obj := List.length (heap w) in
  let w1 := mkWorld (heap w ++ [new_progressListener]) (handlers w) (ui w) in
  let w2 := onNotification (startEvent names) (OnStart names obj) w1 in
  let w3 := onNotification (incrementEvent names) (OnIncrement obj) w2 in
  onNotification (endEvent names) (OnEnd obj) w3.

Definition createProgressListeners (w : world) : world :=
  createProgressListener analyzeEvent (createProgressListener checkEvent w).

Definition invoke (obj : nat) (f : progressListener -> host -> outcome) (w : world)
  : option (world * completion) :=
  match nth_error (heap w) obj with
  | Some this =>
      let '(this', u', c) := f this (ui w) in
      Some (mkWorld (update obj this' (heap w)) (handlers w) u', c)
  | None => None
  end.

(** Delivery of one notification.  A method without handler is dropped.
    The parameter types of the handlers are the declared ones
    ([nFiles: number], [fileName: string]); a payload of another type is
    outside the embedding: [None]. *)
Definition notify (method : string) (p : payload) (w : world)
  : option (world * completion) :=
  match lookup method (handlers w) with
  | None => Some (w, Normal)
  | Some (OnStart names obj) =>
      match p with
      | PNumber n => invoke obj (startCheckFiles names n) w
      | _ => None
      end
  | Some (OnIncrement obj) =>
      match p with
      | PString f => invoke obj (checkFile f) w
      | _ => None
      end
  | Some (OnEnd obj) => invoke obj endCheckFiles w
  end.

(** A sequence of notifications; an exception thrown by a handler is caught
    by the connection, and the next notification is handled as usual. *)
Fixpoint deliver (ns : list (string * payload)) (w : world)
  : option (world * list completion) :=
  match ns with
  | [] => Some (w, [])
  | (m, p) :: ns' =>
      match notify m p w with
      | Some (w', c) =>
          match deliver ns' w' with
          | Some (w'', cs) => Some (w'', c :: cs)
          | None => None
          end
      | None => None
      end
  end.

(** ** One listener driven directly *)

Inductive notification : Type :=
| Start (n : Z)
| Increment (fileName : string)
| End.

Definition handle_notification (names : EventNames) (n : notification)
    (this : progressListener) (u : host) : outcome :=
  match n with
  | Start t => startCheckFiles names t this u
  | Increment f => checkFile f this u
  | End => endCheckFiles this u
  end.

(** Runs the handlers in order; the completions are collected. *)
Fixpoint run (names : EventNames) (ns : list notification)
    (this : progressListener) (u : host) : progressListener * host * list completion :=
  match ns with
  | [] => (this, u, [])
  | n :: ns' =>
      let '(this', u', c) := handle_notification names n this u in
      let '(this'', u'', cs) := run names ns' this' u' in
      (this'', u'', c :: cs)
  end.

Definition increments (l : list effect) : list (option Z) :=
  flat_map (fun e => match e with Report _ _ d => [d] | _ => [] end) l.

Fixpoint count_release (h : handle) (l : list effect) : nat :=
  match l with
  | [] => 0%nat
  | Release h' :: l' => ((if Nat.eqb h h' then 1 else 0) + count_release h l')%nat
  | _ :: l' => count_release h l'
  end.

Fixpoint count_acquire (l : list effect) : nat :=
  match l with
  | [] => 0%nat
  | Acquire _ _ _ :: l' => S (count_acquire l')
  | _ :: l' => count_acquire l'
  end.

(** ** Observations on a run *)

Definition final_listener (r : progressListener * host * list completion) : progressListener :=
  fst (fst r).
Definition final_host (r : progressListener * host * list completion) : host :=
  snd (fst r).
Definition completions (r : progressListener * host * list completion) : list completion :=
  snd r.

(** [percentComplete] reads [countChecked] and [nFiles] only. *)
Definition percent_at (c n : Z) : option Z :=
  percentComplete (mkListener c n None None).

(** The reports of [fs] increments on surface [h], from count [c]. *)
Fixpoint reports (h : handle) (c n : Z) (fs : list string) : list effect :=
  match fs with
  | [] => []
  | f :: fs' =>
      Report h f (js_sub (percent_at (c + 1) n) (percent_at c n)) :: reports h (c + 1) n fs'
  end.

(** The percentage formula as the specification words it, on exact
    rationals: [floor (k / (T + 1) * 100)]. *)
Definition percent_spec (k T : Z) : Z :=
  Qfloor (inject_Z k / inject_Z (T + 1) * 100).

(** The listener state is well formed in a host: an active listener
    holds the handle of a pending promise in both fields. *)
Definition wf_listener (this : progressListener) (u : host) : Prop :=
  forall h, progress this = Some h ->
    resolve this = Some h /\ mem h (pending u) = true /\ (h < next u)%nat.

(** Handle [h] was issued by the host, is still pending, and the listener
    no longer refers to it. *)
Definition leaked (h : handle) (this : progressListener) (u : host) : Prop :=
  (h < next u)%nat /\ mem h (pending u) = true /\ resolve this <> Some h.

(** ** The registry after [createProgressListeners] *)

Definition registry : world := createProgressListeners world0.

(** The handlers and the number of listener objects never change. *)
Definition registry_inv (w : world) : Prop :=
  handlers w = handlers registry /\ List.length (heap w) = 2%nat.

(** The message that carries notification [n] of the class [names]. *)
Definition message_of (names : EventNames) (n : notification) : string * payload :=
  match n with
  | Start t => (startEvent names, PNumber t)
  | Increment f => (incrementEvent names, PString f)
  | End => (endEvent names, PNone)
  end.

(* ================================================================== *)
(** * Part II: binary64 rounding on rationals                          *)
(* ================================================================== *)

(** The operations of [SpecFloat] work on mantissas and exponents.  Their
    results are characterised here by one function on rationals, [Qrnd]:
    rounding to the nearest number with [p] significant bits, ties to the
    even mantissa. *)

Definition pow2 (e : Z) : Q := Qpower 2 e.

(** position of [x] in the interval [[m, m+1)], as [SpecFloat] records it *)
Definition inbetween (m : Z) (l : location) (x : Q) : Prop :=
  match l with
  | loc_Exact => (x == inject_Z m)%Q
  | loc_Inexact Lt => (inject_Z m < x /\ x < inject_Z m + (1#2))%Q
  | loc_Inexact Eq => (x == inject_Z m + (1#2))%Q
  | loc_Inexact Gt => (inject_Z m + (1#2) < x /\ x < inject_Z m + 1)%Q
  end.

Definition inb (mrs : shr_record) (x : Q) : Prop :=
  0 <= shr_m mrs /\ inbetween (shr_m mrs) (loc_of_shr_record mrs) x.

(** nearest integer, ties to even *)
Definition Qrne (x : Q) : Z :=
  let f := Qfloor x in
  match (x - inject_Z f ?= 1#2)%Q with
  | Lt => f
  | Eq => if Z.even f then f else f + 1
  | Gt => f + 1
  end.

(** the binade of a positive rational: [2^(Qmag x - 1) <= x < 2^(Qmag x)] *)
Definition Qmag (x : Q) : Z :=
  let e0 := Z.log2 (Qnum x) - Z.log2 (Zpos (Qden x)) in
  if Qle_bool (pow2 e0) x then e0 + 1 else e0.

Definition Qrnd (p : Z) (x : Q) : Q :=
  (inject_Z (Qrne (x * pow2 (p - Qmag x))) * pow2 (Qmag x - p))%Q.

(** second pass of [binary_round_aux]: the rounded mantissa is put back
    on [prc] bits *)
Definition finish (prc emx m2 e1 : Z) : spec_float :=
  let '(mrs, e) := shr_fexp prc emx m2 e1 loc_Exact in
  match shr_m mrs with
  | Z0 => S754_zero false
  | Zpos m => if e <=? emx - prc then S754_finite false m e else S754_infinity false
  | Zneg _ => S754_nan
  end.

(** the value of [percentComplete] for the quotient [x] *)
Definition percent_of_quotient (x : Q) : Z := Qfloor (Qrnd prec (Qrnd prec x * 100)).

Definition percent_value (k d : Z) : Z := percent_of_quotient (inject_Z k / inject_Z d).

(** the largest double below 1 *)
Definition pred_one : Q := 9007199254740991 # 9007199254740992.

(** the non-negative deltas of [k] increments from count [c] *)
Fixpoint zdeltas (c d : Z) (k : nat) : list Z :=
  match k with
  | O => []
  | S k' => (percent_value (c + 1) d - percent_value c d) :: zdeltas (c + 1) d k'
  end.

(* ================================================================== *)
(** * Part II b: definitions for the further properties (Part VI)      *)
(* ================================================================== *)

Definition is_Start (n : notification) : bool :=
  match n with Start _ => true | _ => false end.

Definition is_some {A : Type} (o : option A) : bool :=
  match o with Some _ => true | None => false end.

(** One complete run: a start, the increments, the end. *)
Definition complete_run (r : Z * list string) : list notification :=
  Start (fst r) :: map Increment (snd r) ++ [End].

(** Number of [Release] events in a trace, whatever the surface. *)
Fixpoint count_releases (l : list effect) : nat :=
  match l with
  | [] => 0%nat
  | Release _ :: l' => S (count_releases l')
  | _ :: l' => count_releases l'
  end.

(** Reading a trace from its oldest event on.  The state is the surface
    acquired last if it has not been released, [Some None] when there is
    none, and [None] once the trace broke the discipline: a report to, or
    a release of, another surface than the one acquired last and still
    open. *)
Definition scan_step (st : option (option handle)) (e : effect)
  : option (option handle) :=
  match st with
  | None => None
  | Some cur =>
      match e with
      | Acquire h _ _ => Some (Some h)
      | Report h _ _ =>
          match cur with
          | Some c => if Nat.eqb c h then Some cur else None
          | None => None
          end
      | CallResolve _ => Some cur
      | Release h =>
          match cur with
          | Some c => if Nat.eqb c h then Some None else None
          | None => None
          end
      end
  end.

Definition scan (l : list effect) : option (option handle) :=
  fold_left scan_step l (Some None).

(** What the handlers read of a listener besides the handles: the two
    counts and whether [progress] and [resolve] are set. *)
Definition shape (this : progressListener) : Z * Z * bool * bool :=
  (countChecked this, nFiles this, is_some (progress this), is_some (resolve this)).

(** A notification tagged with its class: [true] for [checkEvent],
    [false] for [analyzeEvent]. *)
Definition class_names (c : bool) : EventNames := if c then checkEvent else analyzeEvent.

Definition tagged_message (cn : bool * notification) : string * payload :=
  message_of (class_names (fst cn)) (snd cn).

Definition of_class (c : bool) (l : list (bool * notification)) : list notification :=
  map snd (filter (fun cn => Bool.eqb (fst cn) c) l).

(** The file names reported to the user, and the surfaces shown (title
    and location), in the order of the trace. *)
Definition reported_files (l : list effect) : list string :=
  flat_map (fun e => match e with Report _ f _ => [f] | _ => [] end) l.

Definition surfaces (l : list effect) : list (string * Z) :=
  flat_map (fun e => match e with Acquire _ t loc => [(t, loc)] | _ => [] end) l.

(** The file names of the increments that arrive between a start and the
    next end; [a] tells whether a start is open at the beginning. *)
Fixpoint files_while_active (a : bool) (ns : list notification) : list string :=
  match ns with
  | [] => []
  | Start _ :: ns' => files_while_active true ns'
  | Increment f :: ns' =>
      if a then f :: files_while_active a ns' else files_while_active a ns'
  | End :: ns' => files_while_active false ns'
  end.

(** The number of ends that arrive while a start is open. *)
Fixpoint ends_while_active (a : bool) (ns : list notification) : nat :=
  match ns with
  | [] => 0%nat
  | Start _ :: ns' => ends_while_active true ns'
  | Increment _ :: ns' => ends_while_active a ns'
  | End :: ns' => ((if a then 1 else 0) + ends_while_active false ns')%nat
  end.

(** The totals announced by the starts of a sequence. *)
Definition totals (ns : list notification) : list Z :=
  flat_map (fun n => match n with Start t => [t] | _ => [] end) ns.

(** The three identifiers of a descriptor are pairwise distinct. *)
Definition distinct_events (names : EventNames) : Prop :=
  startEvent names <> incrementEvent names /\
  startEvent names <> endEvent names /\
  incrementEvent names <> endEvent names.


(* ================================================================== *)
(** * Part III: the rounding of [SpecFloat] is [Qrnd]                  *)
(* ================================================================== *)

(** ** Powers of two *)

Lemma pow2_pos e : (0 < pow2 e)%Q.
Proof. apply Qpower_0_lt. reflexivity. Qed.

Lemma pow2_add a b : (pow2 (a + b) == pow2 a * pow2 b)%Q.
Proof. apply Qpower_plus. discriminate. Qed.

Lemma pow2_opp a : (pow2 (- a) == / pow2 a)%Q.
Proof. apply Qpower_opp. Qed.

Lemma pow2_Z a : 0 <= a -> (pow2 a == inject_Z (2 ^ a))%Q.
Proof. intros H. unfold pow2. rewrite (Zpower_Qpower 2 a H). reflexivity. Qed.

Lemma pow2_le a b : a <= b -> (pow2 a <= pow2 b)%Q.
Proof. intros H. apply Qpower_le_compat_l; [exact H | discriminate]. Qed.

Lemma pow2_lt a b : a < b -> (pow2 a < pow2 b)%Q.
Proof. intros H. apply Qpower_lt_compat_l; [exact H | reflexivity]. Qed.

Lemma pow2_lt_inv a b : (pow2 a < pow2 b)%Q -> a < b.
Proof. intros H. apply (Qpower_lt_compat_l_inv 2); [exact H | reflexivity]. Qed.

Lemma pow2_0 : (pow2 0 == 1)%Q.
Proof. reflexivity. Qed.

Lemma pow2_succ a : (pow2 (a + 1) == 2 * pow2 a)%Q.
Proof. rewrite pow2_add. change (pow2 1) with 2%Q. ring. Qed.

Lemma pow2_cancel a : (pow2 a * pow2 (- a) == 1)%Q.
Proof. rewrite <- pow2_add. rewrite Z.add_opp_diag_r. reflexivity. Qed.

(** ** Number of binary digits *)

Lemma digits2_pos_size p : digits2_pos p = Pos.size p.
Proof. induction p; simpl; congruence. Qed.

Lemma Zdigits2_log2 m : 0 < m -> Zdigits2 m = Z.log2 m + 1.
Proof.
  destruct m as [|p|p]; try lia. intros _. simpl.
  rewrite digits2_pos_size.
  destruct p; simpl; lia.
Qed.

Lemma Zdigits2_bounds m : 0 < m -> 2 ^ (Zdigits2 m - 1) <= m < 2 ^ Zdigits2 m.
Proof.
  intros H. rewrite (Zdigits2_log2 m H).
  replace (Z.log2 m + 1 - 1) with (Z.log2 m) by lia.
  replace (Z.log2 m + 1) with (Z.succ (Z.log2 m)) by lia.
  apply Z.log2_spec. exact H.
Qed.

Lemma Zdigits2_unique m d : 0 < d -> 2 ^ (d - 1) <= m < 2 ^ d -> Zdigits2 m = d.
Proof.
  intros Hd H.
  assert (0 < m) by (assert (0 < 2 ^ (d - 1)) by (apply Z.pow_pos_nonneg; lia); lia).
  rewrite (Zdigits2_log2 m) by assumption.
  rewrite (Z.log2_unique m (d - 1)); try lia.
  replace (Z.succ (d - 1)) with d by lia. exact H.
Qed.

(** ** Shifting right with a round bit and a sticky bit

    [shr_1] halves the mantissa and keeps track of where the value lay
    between two mantissas; [inb] states it on the value. *)

Lemma inject_Z_xO p : (inject_Z (Zpos p~0) == 2 * inject_Z (Zpos p))%Q.
Proof. rewrite Pos2Z.inj_xO, inject_Z_mult. reflexivity. Qed.

Lemma inject_Z_xI p : (inject_Z (Zpos p~1) == 2 * inject_Z (Zpos p) + 1)%Q.
Proof. rewrite Pos2Z.inj_xI, inject_Z_plus, inject_Z_mult. reflexivity. Qed.

Lemma shr_1_inb mrs x : inb mrs x -> inb (shr_1 mrs) (x * (1#2))%Q.
Proof.
  destruct mrs as [m r s]. unfold inb. simpl. intros [Hm H].
  destruct m as [|p|p]; [ | | lia].
  - destruct r, s; simpl in *; change (inject_Z 0) with 0%Q in *;
      (split; [lia|]); first [lra | split; lra].
  - destruct p as [p|p|].
    + pose proof (inject_Z_xI p) as E.
      destruct r, s; simpl in *; (split; [lia|]); first [lra | split; lra].
    + pose proof (inject_Z_xO p) as E.
      destruct r, s; simpl in *; (split; [lia|]); first [lra | split; lra].
    + destruct r, s; simpl in *;
        change (inject_Z 1) with 1%Q in *; change (inject_Z 0) with 0%Q in *;
        (split; [lia|]); first [lra | split; lra].
Qed.

Lemma iter_pos_shr_1_inb n : forall mrs x,
  inb mrs x -> inb (iter_pos shr_1 n mrs) (x * pow2 (- Zpos n))%Q.
Proof.
  assert (half : forall y, (y * (1#2) == y * pow2 (-1))%Q).
  { intros y. reflexivity. }
  induction n as [n IH|n IH|]; intros mrs x H; simpl.
  - apply shr_1_inb in H. apply IH in H. apply IH in H.
    destruct H as [H0 H]. split; [exact H0|].
    revert H. generalize (loc_of_shr_record (iter_pos shr_1 n (iter_pos shr_1 n (shr_1 mrs)))).
    generalize (shr_m (iter_pos shr_1 n (iter_pos shr_1 n (shr_1 mrs)))).
    intros m l H.
    assert (E : (x * (1#2) * pow2 (- Z.pos n) * pow2 (- Z.pos n) == x * pow2 (- Z.pos n~1))%Q).
    { rewrite half. rewrite <- !Qmult_assoc. rewrite <- !pow2_add.
      replace (-1 + (- Z.pos n + - Z.pos n)) with (- Z.pos n~1) by lia. reflexivity. }
    destruct l as [|[| |]]; simpl in *; rewrite <- E; exact H.
  - apply IH in H. apply IH in H.
    destruct H as [H0 H]. split; [exact H0|].
    revert H. generalize (loc_of_shr_record (iter_pos shr_1 n (iter_pos shr_1 n mrs))).
    generalize (shr_m (iter_pos shr_1 n (iter_pos shr_1 n mrs))).
    intros m l H.
    assert (E : (x * pow2 (- Z.pos n) * pow2 (- Z.pos n) == x * pow2 (- Z.pos n~0))%Q).
    { rewrite <- !Qmult_assoc. rewrite <- !pow2_add.
      replace (- Z.pos n + - Z.pos n) with (- Z.pos n~0) by lia. reflexivity. }
    destruct l as [|[| |]]; simpl in *; rewrite <- E; exact H.
  - apply shr_1_inb in H. destruct H as [H0 H]. split; [exact H0|].
    revert H. generalize (loc_of_shr_record (shr_1 mrs)). generalize (shr_m (shr_1 mrs)).
    intros m l H. specialize (half x).
    destruct l as [|[| |]]; simpl in *; rewrite <- half; exact H.
Qed.

(** ** Rounding to the nearest integer *)

Lemma Qfloor_unique x m : (inject_Z m <= x)%Q -> (x < inject_Z m + 1)%Q -> Qfloor x = m.
Proof.
  intros H1 H2.
  pose proof (Qfloor_le x) as F1. pose proof (Qlt_floor x) as F2.
  rewrite inject_Z_plus in F2. change (inject_Z 1) with 1%Q in F2.
  assert (A : (inject_Z (Qfloor x) < inject_Z (m + 1))%Q).
  { rewrite inject_Z_plus. change (inject_Z 1) with 1%Q. lra. }
  assert (B : (inject_Z m < inject_Z (Qfloor x + 1))%Q).
  { rewrite inject_Z_plus. change (inject_Z 1) with 1%Q. lra. }
  rewrite <- Zlt_Qlt in A, B. lia.
Qed.

Lemma Qrne_bounds x : Qfloor x <= Qrne x <= Qfloor x + 1.
Proof.
  unfold Qrne. destruct (Qcompare _ _); [destruct (Z.even _)| |]; lia.
Qed.

Lemma Qrne_err x : (x - (1#2) <= inject_Z (Qrne x) <= x + (1#2))%Q.
Proof.
  unfold Qrne.
  pose proof (Qfloor_le x) as F1. pose proof (Qlt_floor x) as F2.
  rewrite inject_Z_plus in F2. change (inject_Z 1) with 1%Q in F2.
  destruct (Qcompare_spec (x - inject_Z (Qfloor x)) (1#2)) as [E|E|E].
  - destruct (Z.even _); [|rewrite inject_Z_plus; change (inject_Z 1) with 1%Q]; lra.
  - lra.
  - rewrite inject_Z_plus; change (inject_Z 1) with 1%Q; lra.
Qed.

Lemma Qrne_mono x y : (x <= y)%Q -> Qrne x <= Qrne y.
Proof.
  intros H.
  pose proof (Qfloor_resp_le x y H) as F.
  pose proof (Qrne_bounds x) as Bx. pose proof (Qrne_bounds y) as By.
  destruct (Z.eq_dec (Qfloor x) (Qfloor y)) as [E|NE]; [|lia].
  unfold Qrne in *. rewrite <- E in *.
  destruct (Qcompare_spec (x - inject_Z (Qfloor x)) (1#2)) as [Ex|Ex|Ex];
  destruct (Qcompare_spec (y - inject_Z (Qfloor x)) (1#2)) as [Ey|Ey|Ey];
  try lia; try (exfalso; lra); destruct (Z.even _); lia.
Qed.

Lemma Qrne_Z z : Qrne (inject_Z z) = z.
Proof.
  unfold Qrne. rewrite Qfloor_Z.
  destruct (Qcompare_spec (inject_Z z - inject_Z z) (1#2)) as [E|E|E]; try lra. reflexivity.
Qed.

Lemma Qrne_comp x y : (x == y)%Q -> Qrne x = Qrne y.
Proof.
  intros H. apply Z.le_antisymm; apply Qrne_mono; rewrite H; apply Qle_refl.
Qed.

Lemma round_nearest_even_Qrne m l x :
  inbetween m l x -> round_nearest_even m l = Qrne x.
Proof.
  intros H. unfold Qrne.
  assert (F : Qfloor x = m).
  { apply Qfloor_unique; destruct l as [|[| |]]; simpl in H; lra. }
  rewrite F.
  destruct l as [|[| |]]; simpl in *;
  destruct (Qcompare_spec (x - inject_Z m) (1#2)) as [E|E|E]; try reflexivity;
  exfalso; lra.
Qed.

(** ** Binades *)

Lemma Qmag_spec x : (0 < x)%Q -> (pow2 (Qmag x - 1) <= x /\ x < pow2 (Qmag x))%Q.
Proof.
  intros Hx. destruct x as [n d]. unfold Qmag. simpl Qnum. simpl Qden.
  assert (Hn : 0 < n).
  { unfold Qlt in Hx. simpl in Hx. lia. }
  set (a := Z.log2 n). set (b := Z.log2 (Zpos d)).
  assert (Ha : 0 <= a) by apply Z.log2_nonneg.
  assert (Hb : 0 <= b) by apply Z.log2_nonneg.
  destruct (Z.log2_spec n Hn) as [A1 A2]. fold a in A1, A2.
  destruct (Z.log2_spec (Zpos d) (Pos2Z.is_pos d)) as [B1 B2]. fold b in B1, B2.
  rewrite Zle_Qle in A1, B1. rewrite Zlt_Qlt in A2, B2.
  rewrite <- pow2_Z in A1, A2, B1, B2 by lia.
  unfold Z.succ in A2, B2. rewrite pow2_succ in A2, B2.
  assert (X : ((n # d) * inject_Z (Zpos d) == inject_Z n)%Q).
  { rewrite (Qmake_Qdiv n d). field. discriminate. }
  set (x := (n # d)%Q) in *. set (N := inject_Z n) in *. set (D := inject_Z (Zpos d)) in *.
  assert (P1 : (pow2 a == pow2 (a - b) * pow2 b)%Q).
  { rewrite <- pow2_add. replace (a - b + b) with a by lia. reflexivity. }
  assert (P2 : (pow2 (a - b + 1) == 2 * pow2 (a - b))%Q) by apply pow2_succ.
  assert (P3 : (pow2 (a - b) == 2 * pow2 (a - b - 1))%Q).
  { rewrite <- pow2_succ. replace (a - b - 1 + 1) with (a - b) by lia. reflexivity. }
  pose proof (pow2_pos (a - b)) as Q1. pose proof (pow2_pos b) as Q2.
  pose proof (pow2_pos (a - b - 1)) as Q3.
  destruct (Qle_bool (pow2 (a - b)) x) eqn:C.
  - apply Qle_bool_imp_le in C.
    replace (a - b + 1 - 1) with (a - b) by lia. split; [exact C|].
    rewrite P2. apply (Qmult_lt_r _ _ D); [lra|]. nra.
  - assert (C' : (x < pow2 (a - b))%Q).
    { apply Qnot_le_lt. intros K. apply Qle_bool_iff in K. congruence. }
    split; [|exact C'].
    apply (Qmult_le_r _ _ D); [lra|]. nra.
Qed.

Lemma Qmag_unique x e : (pow2 (e - 1) <= x)%Q -> (x < pow2 e)%Q -> Qmag x = e.
Proof.
  intros H1 H2.
  assert (Hx : (0 < x)%Q) by (pose proof (pow2_pos (e - 1)); lra).
  destruct (Qmag_spec x Hx) as [M1 M2].
  assert (A : Qmag x - 1 < e) by (apply pow2_lt_inv; lra).
  assert (B : e - 1 < Qmag x) by (apply pow2_lt_inv; lra).
  lia.
Qed.

Lemma Qmag_mono x y : (0 < x)%Q -> (x <= y)%Q -> Qmag x <= Qmag y.
Proof.
  intros Hx H.
  destruct (Qmag_spec x Hx) as [M1 M2].
  destruct (Qmag_spec y) as [N1 N2]; [lra|].
  assert (A : Qmag x - 1 < Qmag y) by (apply pow2_lt_inv; lra). lia.
Qed.

Lemma Qmag_comp x y : (0 < x)%Q -> (x == y)%Q -> Qmag x = Qmag y.
Proof.
  intros Hx H. destruct (Qmag_spec x Hx) as [M1 M2].
  symmetry. apply Qmag_unique; lra.
Qed.

(** ** Properties of [Qrnd]: monotone, accurate to [2^-p], exact on
    numbers of [p] bits *)

Section QrndFacts.
Variable p : Z.
Hypothesis Hp : 0 < p.

Lemma Qrnd_scaled_bounds x : (0 < x)%Q ->
  (inject_Z (2 ^ (p - 1)) <= x * pow2 (p - Qmag x) /\ x * pow2 (p - Qmag x) < inject_Z (2 ^ p))%Q.
Proof.
  intros Hx. destruct (Qmag_spec x Hx) as [M1 M2].
  rewrite <- !pow2_Z by lia.
  pose proof (pow2_pos (p - Qmag x)) as P.
  assert (E1 : (pow2 (p - 1) == pow2 (Qmag x - 1) * pow2 (p - Qmag x))%Q).
  { rewrite <- pow2_add. replace (Qmag x - 1 + (p - Qmag x)) with (p - 1) by lia. reflexivity. }
  assert (E2 : (pow2 p == pow2 (Qmag x) * pow2 (p - Qmag x))%Q).
  { rewrite <- pow2_add. replace (Qmag x + (p - Qmag x)) with p by lia. reflexivity. }
  rewrite E1, E2. split.
  - apply Qmult_le_compat_r; lra.
  - apply Qmult_lt_compat_r; lra.
Qed.

Lemma Qrne_scaled_bounds x : (0 < x)%Q ->
  2 ^ (p - 1) <= Qrne (x * pow2 (p - Qmag x)) <= 2 ^ p.
Proof.
  intros Hx. destruct (Qrnd_scaled_bounds x Hx) as [B1 B2]. split.
  - rewrite <- (Qrne_Z (2 ^ (p - 1))). apply Qrne_mono. exact B1.
  - rewrite <- (Qrne_Z (2 ^ p)). apply Qrne_mono. lra.
Qed.

Lemma Qrnd_range x : (0 < x)%Q ->
  (pow2 (Qmag x - 1) <= Qrnd p x /\ Qrnd p x <= pow2 (Qmag x))%Q.
Proof.
  intros Hx. destruct (Qrne_scaled_bounds x Hx) as [B1 B2].
  rewrite Zle_Qle in B1, B2. rewrite <- !pow2_Z in B1, B2 by lia.
  unfold Qrnd. pose proof (pow2_pos (Qmag x - p)) as P.
  assert (E1 : (pow2 (Qmag x - 1) == pow2 (p - 1) * pow2 (Qmag x - p))%Q).
  { rewrite <- pow2_add. replace (p - 1 + (Qmag x - p)) with (Qmag x - 1) by lia. reflexivity. }
  assert (E2 : (pow2 (Qmag x) == pow2 p * pow2 (Qmag x - p))%Q).
  { rewrite <- pow2_add. replace (p + (Qmag x - p)) with (Qmag x) by lia. reflexivity. }
  rewrite E1, E2. split; apply Qmult_le_compat_r; lra.
Qed.

Lemma Qrnd_pos x : (0 < x)%Q -> (0 < Qrnd p x)%Q.
Proof.
  intros Hx. destruct (Qrnd_range x Hx) as [R _].
  pose proof (pow2_pos (Qmag x - 1)). lra.
Qed.

Lemma Qrnd_mono x y : (0 < x)%Q -> (x <= y)%Q -> (Qrnd p x <= Qrnd p y)%Q.
Proof.
  intros Hx H. assert (Hy : (0 < y)%Q) by lra.
  pose proof (Qmag_mono x y Hx H) as M.
  destruct (Z.eq_dec (Qmag x) (Qmag y)) as [E|NE].
  - unfold Qrnd. rewrite <- E.
    apply Qmult_le_compat_r; [|pose proof (pow2_pos (Qmag x - p)); lra].
    rewrite <- Zle_Qle. apply Qrne_mono.
    apply Qmult_le_compat_r; [exact H|pose proof (pow2_pos (p - Qmag x)); lra].
  - destruct (Qrnd_range x Hx) as [_ R1]. destruct (Qrnd_range y Hy) as [R2 _].
    assert (L : (pow2 (Qmag x) <= pow2 (Qmag y - 1))%Q) by (apply pow2_le; lia).
    lra.
Qed.

Lemma Qrnd_comp x y : (0 < x)%Q -> (x == y)%Q -> (Qrnd p x == Qrnd p y)%Q.
Proof.
  intros Hx H. apply Qle_antisym; apply Qrnd_mono; lra.
Qed.

(** relative error at most [2^-p] *)
Lemma Qrnd_err x : (0 < x)%Q ->
  (x - x * pow2 (- p) <= Qrnd p x /\ Qrnd p x <= x + x * pow2 (- p))%Q.
Proof.
  intros Hx. destruct (Qrnd_scaled_bounds x Hx) as [B1 _].
  rewrite <- pow2_Z in B1 by lia.
  pose proof (Qrne_err (x * pow2 (p - Qmag x))) as [E1 E2].
  unfold Qrnd.
  set (z := (x * pow2 (p - Qmag x))%Q) in *.
  set (r := inject_Z (Qrne z)) in *.
  pose proof (pow2_pos (Qmag x - p)) as P.
  assert (X : (x == z * pow2 (Qmag x - p))%Q).
  { unfold z. rewrite <- Qmult_assoc, <- pow2_add.
    replace (p - Qmag x + (Qmag x - p)) with 0 by lia. rewrite pow2_0. ring. }
  assert (H2 : ((1#2) <= z * pow2 (- p))%Q).
  { assert (K : (pow2 (p - 1) * pow2 (- p) == 1#2)%Q).
    { rewrite <- pow2_add. replace (p - 1 + - p) with (-1) by lia. reflexivity. }
    rewrite <- K. apply Qmult_le_compat_r; [exact B1|pose proof (pow2_pos (- p)); lra]. }
  set (s := pow2 (Qmag x - p)) in *. set (u := pow2 (- p)) in *.
  clearbody z r s u.
  assert (K1 : (0 <= (r - z + (1#2)) * s)%Q) by (apply Qmult_le_0_compat; lra).
  assert (K2 : (0 <= (z + (1#2) - r) * s)%Q) by (apply Qmult_le_0_compat; lra).
  assert (K3 : (0 <= (z * u - (1#2)) * s)%Q) by (apply Qmult_le_0_compat; lra).
  split; nra.
Qed.

(** values with at most [p] significant bits are fixed *)
Lemma Qrnd_exact x n : (0 < x)%Q -> (x * pow2 (p - Qmag x) == inject_Z n)%Q ->
  (Qrnd p x == x)%Q.
Proof.
  intros Hx H. unfold Qrnd. rewrite (Qrne_comp _ _ H), Qrne_Z. rewrite <- H.
  rewrite <- Qmult_assoc, <- pow2_add.
  replace (p - Qmag x + (Qmag x - p)) with 0 by lia. rewrite pow2_0. ring.
Qed.
End QrndFacts.

(** ** [binary_round_aux] rounds as [Qrnd]

    For a positive value in the range of the normal numbers, given as a
    mantissa [mx], an exponent [ex] and the position of the value above
    [mx], [binary_round_aux] returns a finite float whose value is [Qrnd]
    of the value. *)

Lemma loc_of_shr_record_of_loc m l : loc_of_shr_record (shr_record_of_loc m l) = l.
Proof. destruct l as [|[| |]]; reflexivity. Qed.

Lemma shr_m_of_loc m l : shr_m (shr_record_of_loc m l) = m.
Proof. destruct l as [|[| |]]; reflexivity. Qed.

Lemma inb_of_loc m l x : 0 <= m -> inbetween m l x -> inb (shr_record_of_loc m l) x.
Proof.
  intros Hm H. unfold inb. rewrite shr_m_of_loc, loc_of_shr_record_of_loc. auto.
Qed.

Lemma inbetween_comp m l x y : (x == y)%Q -> inbetween m l x -> inbetween m l y.
Proof.
  intros E. destruct l as [|[| |]]; simpl; rewrite E; auto.
Qed.

Lemma inbetween_floor m l x : inbetween m l x -> Qfloor x = m.
Proof.
  intros H. apply Qfloor_unique; destruct l as [|[| |]]; simpl in H; lra.
Qed.

Lemma shr_inb mrs e n x : 0 <= n -> inb mrs x ->
  inb (fst (shr mrs e n)) (x * pow2 (- n))%Q /\ snd (shr mrs e n) = e + n.
Proof.
  intros Hn H. destruct n as [|n|n]; try lia; simpl.
  - split; [|lia]. destruct H as [H0 H]. split; [exact H0|].
    apply (inbetween_comp _ _ x); [|exact H]. change (pow2 0) with 1%Q. ring.
  - split; [|reflexivity]. apply (iter_pos_shr_1_inb n mrs x H).
Qed.

Lemma shr_neg mrs e n : n <= 0 -> shr mrs e n = (mrs, e).
Proof. destruct n; try reflexivity. lia. Qed.

Lemma scaled_mag mx x0 ex :
  0 < mx -> (inject_Z mx <= x0)%Q -> (x0 < inject_Z mx + 1)%Q ->
  Qmag (x0 * pow2 ex) = Zdigits2 mx + ex.
Proof.
  intros Hm H1 H2.
  destruct (Zdigits2_bounds mx Hm) as [B1 B2].
  assert (0 < Zdigits2 mx) by (rewrite Zdigits2_log2 by lia; pose proof (Z.log2_nonneg mx); lia).
  assert (B2' : mx + 1 <= 2 ^ Zdigits2 mx) by lia.
  rewrite Zle_Qle in B1, B2'. rewrite inject_Z_plus in B2'. change (inject_Z 1) with 1%Q in B2'.
  rewrite <- !pow2_Z in B1, B2' by lia.
  pose proof (pow2_pos ex) as P.
  apply Qmag_unique.
  - replace (Zdigits2 mx + ex - 1) with (Zdigits2 mx - 1 + ex) by lia.
    rewrite pow2_add. apply Qmult_le_compat_r; lra.
  - rewrite pow2_add. apply Qmult_lt_compat_r; lra.
Qed.

Lemma inbetween_bounds m l x : inbetween m l x -> (inject_Z m <= x /\ x < inject_Z m + 1)%Q.
Proof. destruct l as [|[| |]]; simpl; intros H; lra. Qed.


Section Round.
Variables prc emx : Z.
Hypothesis Hprec : 0 < prc.
Hypothesis Hemax : prc < emx.

Let emin := SpecFloat.emin prc emx.
Let fexp := SpecFloat.fexp prc emx.

Lemma fexp_normal e : emin + prc <= e -> fexp e = e - prc.
Proof. unfold fexp, SpecFloat.fexp, emin, SpecFloat.emin. lia. Qed.

Lemma binary_round_aux_finish mx ex lx :
binary_round_aux prc emx false mx ex lx =
let '(mrs, e) := shr_fexp prc emx mx ex lx in
finish prc emx (round_nearest_even (shr_m mrs) (loc_of_shr_record mrs)) e.
Proof.
unfold binary_round_aux, finish. destruct (shr_fexp prc emx mx ex lx) as [mrs e].
reflexivity.
Qed.

Lemma finish_small m2 e1 :
  0 < m2 < 2 ^ prc -> emin <= e1 -> e1 <= emx - prc ->
  exists m, finish prc emx m2 e1 = S754_finite false m e1 /\ Zpos m = m2.
Proof.
  intros Hm He1 He2. unfold finish, shr_fexp.
  assert (D : Zdigits2 m2 <= prc).
  { destruct (Zdigits2_bounds m2) as [B1 B2]; [lia|].
    destruct (Z.le_gt_cases (Zdigits2 m2) prc) as [L|G]; [exact L|exfalso].
    assert (2 ^ prc <= 2 ^ (Zdigits2 m2 - 1)) by (apply Z.pow_le_mono_r; lia). lia. }
  rewrite shr_neg.
  2:{ unfold SpecFloat.fexp. fold emin. lia. }
  simpl. destruct m2 as [|m|m]; try lia.
  exists m. split; [|reflexivity].
  destruct (Z.leb_spec e1 (emx - prc)); [reflexivity|lia].
Qed.

Lemma finish_carry e1 :
  emin <= e1 -> e1 < emx - prc ->
  exists m, finish prc emx (2 ^ prc) e1 = S754_finite false m (e1 + 1) /\ Zpos m = 2 ^ (prc - 1).
Proof.
  intros He1 He2. unfold finish, shr_fexp.
  assert (D : Zdigits2 (2 ^ prc) = prc + 1).
  { apply Zdigits2_unique; [lia|]. replace (prc + 1 - 1) with prc by lia.
    split; [lia|]. apply Z.pow_lt_mono_r; lia. }
  rewrite D.
  assert (F : SpecFloat.fexp prc emx (prc + 1 + e1) - e1 = 1).
  { unfold SpecFloat.fexp. fold emin. lia. }
  rewrite F.
  assert (I : inb (shr_record_of_loc (2 ^ prc) loc_Exact) (inject_Z (2 ^ prc))).
  { apply inb_of_loc; [apply Z.pow_nonneg; lia|]. simpl. reflexivity. }
  destruct (shr_inb _ e1 1 _ ltac:(lia) I) as [[J0 J] E].
  destruct (shr (shr_record_of_loc (2 ^ prc) loc_Exact) e1 1) as [mrs e].
  simpl in J0, J, E. subst e.
  apply inbetween_floor in J.
  assert (K : (inject_Z (2 ^ prc) * pow2 (-1) == inject_Z (2 ^ (prc - 1)))%Q).
  { rewrite <- !pow2_Z by lia. rewrite <- pow2_add.
    replace (prc + -1) with (prc - 1) by lia. reflexivity. }
  rewrite K, Qfloor_Z in J.
  assert (0 < 2 ^ (prc - 1)) by (apply Z.pow_pos_nonneg; lia).
  destruct (shr_m mrs) as [|m|m]; try lia.
  exists m. split; [|lia].
  destruct (Z.leb_spec (e1 + 1) (emx - prc)); [reflexivity|lia].
Qed.

(** The mantissa either has at least [prc] digits and is shifted and
    rounded, or has fewer and stands for an exact value. *)
Theorem binary_round_aux_spec mx ex lx x0 :
  0 < mx -> inbetween mx lx x0 ->
  emin + prc <= Zdigits2 mx + ex ->
  Zdigits2 mx + ex < emx ->
  ex < emx - prc ->
  lx = loc_Exact \/ prc <= Zdigits2 mx ->
  exists m e,
    binary_round_aux prc emx false mx ex lx = S754_finite false m e /\
    (inject_Z (Zpos m) * pow2 e == Qrnd prc (x0 * pow2 ex))%Q /\
    Zdigits2 mx + ex <= Zdigits2 (Zpos m) + e <= Zdigits2 mx + ex + 1.
Proof.
  intros Hm Hin Hlo Hhi Hex Hcase.
  destruct (inbetween_bounds _ _ _ Hin) as [X1 X2].
  pose proof (scaled_mag mx x0 ex Hm X1 X2) as Mag.
  assert (Hx0 : (0 < x0)%Q).
  { assert (A : (inject_Z 0 < inject_Z mx)%Q) by (rewrite <- Zlt_Qlt; exact Hm).
    change (inject_Z 0) with 0%Q in A. lra. }
  assert (Hx : (0 < x0 * pow2 ex)%Q).
  { apply Qmult_lt_0_compat; [exact Hx0|apply pow2_pos]. }
  set (d := Zdigits2 mx) in *.
  rewrite binary_round_aux_finish. unfold shr_fexp. fold d.
  assert (F : SpecFloat.fexp prc emx (d + ex) - ex = d - prc).
  { unfold SpecFloat.fexp. fold emin. lia. }
  rewrite F.
  destruct (Z.le_gt_cases prc d) as [Hd|Hd].
  - (* at least [prc] digits: shift right by [d - prc], then round *)
    pose proof (inb_of_loc mx lx x0 ltac:(lia) Hin) as I.
    destruct (shr_inb _ ex (d - prc) _ ltac:(lia) I) as [[J0 J] E].
    destruct (shr (shr_record_of_loc mx lx) ex (d - prc)) as [mrs e1].
    simpl in J0, J, E. subst e1.
    rewrite (round_nearest_even_Qrne _ _ _ J).
    assert (S : (x0 * pow2 (- (d - prc)) == x0 * pow2 ex * pow2 (prc - Qmag (x0 * pow2 ex)))%Q).
    { rewrite Mag. rewrite <- Qmult_assoc, <- pow2_add.
      replace (ex + (prc - (d + ex))) with (- (d - prc)) by lia. reflexivity. }
    rewrite (Qrne_comp _ _ S).
    pose proof (Qrne_scaled_bounds prc Hprec _ Hx) as [R1 R2].
    unfold Qrnd.
    set (m2 := Qrne (x0 * pow2 ex * pow2 (prc - Qmag (x0 * pow2 ex)))) in *.
    rewrite Mag.
    replace (ex + (d - prc)) with (d + ex - prc) by lia.
    assert (0 < 2 ^ (prc - 1)) by (apply Z.pow_pos_nonneg; lia).
    destruct (Z.eq_dec m2 (2 ^ prc)) as [C|C].
    + rewrite C.
      destruct (finish_carry (d + ex - prc)) as [m [Fm Vm]]; try lia.
      exists m, (d + ex - prc + 1). split; [exact Fm|]. split.
      * rewrite Vm. rewrite <- !pow2_Z by lia. rewrite <- !pow2_add.
        replace (prc - 1 + (d + ex - prc + 1)) with (prc + (d + ex - prc)) by lia.
        reflexivity.
      * rewrite (Zdigits2_unique (Zpos m) prc); try lia.
        rewrite Vm. split; [lia|]. apply Z.pow_lt_mono_r; lia.
    + destruct (finish_small m2 (d + ex - prc)) as [m [Fm Vm]]; try lia.
      exists m, (d + ex - prc). split; [exact Fm|]. split.
      * rewrite Vm. reflexivity.
      * rewrite (Zdigits2_unique (Zpos m) prc); try lia.
  - (* fewer than [prc] digits and an exact value: nothing to round *)
    destruct Hcase as [Hl|Hl]; [|lia]. subst lx. simpl in Hin.
    rewrite shr_neg by lia.
    cbv [shr_record_of_loc shr_m loc_of_shr_record round_nearest_even].
    destruct (finish_small mx ex) as [m [Fm Vm]]; try lia.
    { split; [lia|].
      destruct (Zdigits2_bounds mx Hm) as [_ B]. fold d in B.
      assert (2 ^ d <= 2 ^ prc) by (apply Z.pow_le_mono_r; lia). lia. }
    exists m, ex. split; [exact Fm|]. split.
    + rewrite Vm.
      assert (S : (x0 * pow2 ex * pow2 (prc - Qmag (x0 * pow2 ex))
                   == inject_Z (mx * 2 ^ (prc - d)))%Q).
      { rewrite Mag, inject_Z_mult, <- pow2_Z by lia. rewrite Hin.
        rewrite <- Qmult_assoc, <- pow2_add.
        replace (ex + (prc - (d + ex))) with (prc - d) by lia. reflexivity. }
      rewrite (Qrnd_exact prc _ _ Hx S). rewrite Hin. reflexivity.
    + rewrite Vm. fold d. lia.
Qed.
End Round.

(** ** Conversion, product, quotient and floor *)

Lemma iter_xO m d : Zpos (Pos.iter xO m d) = Zpos m * 2 ^ Zpos d.
Proof.
  induction d as [|d IH] using Pos.peano_ind.
  - simpl. lia.
  - rewrite Pos.iter_succ, Pos2Z.inj_xO, IH, Pos2Z.inj_succ, Z.pow_succ_r by lia. ring.
Qed.

Lemma Zdigits2_shift m n : 0 < m -> 0 <= n -> Zdigits2 (m * 2 ^ n) = Zdigits2 m + n.
Proof.
  intros Hm Hn. destruct (Zdigits2_bounds m Hm) as [B1 B2].
  assert (0 < Zdigits2 m) by (rewrite Zdigits2_log2 by lia; pose proof (Z.log2_nonneg m); lia).
  assert (0 < 2 ^ n) by (apply Z.pow_pos_nonneg; lia).
  apply Zdigits2_unique; [lia|].
  replace (Zdigits2 m + n - 1) with (Zdigits2 m - 1 + n) by lia.
  rewrite !Z.pow_add_r by lia. split; nia.
Qed.

Lemma Zdigits2_pos m : 0 < m -> 0 < Zdigits2 m.
Proof.
  intros H. rewrite Zdigits2_log2 by lia. pose proof (Z.log2_nonneg m). lia.
Qed.

Lemma Zdigits2_mul a b : 0 < a -> 0 < b ->
  Zdigits2 a + Zdigits2 b - 1 <= Zdigits2 (a * b) <= Zdigits2 a + Zdigits2 b.
Proof.
  intros Ha Hb.
  destruct (Zdigits2_bounds a Ha) as [A1 A2]. destruct (Zdigits2_bounds b Hb) as [B1 B2].
  pose proof (Zdigits2_pos a Ha). pose proof (Zdigits2_pos b Hb).
  assert (Hab : 0 < a * b) by nia.
  destruct (Zdigits2_bounds (a * b) Hab) as [C1 C2].
  pose proof (Zdigits2_pos (a * b) Hab).
  assert (L : 2 ^ (Zdigits2 a - 1 + (Zdigits2 b - 1)) < 2 ^ Zdigits2 (a * b)).
  { rewrite Z.pow_add_r by lia.
    assert (0 < 2 ^ (Zdigits2 a - 1)) by (apply Z.pow_pos_nonneg; lia).
    assert (0 < 2 ^ (Zdigits2 b - 1)) by (apply Z.pow_pos_nonneg; lia). nia. }
  assert (U : 2 ^ (Zdigits2 (a * b) - 1) < 2 ^ (Zdigits2 a + Zdigits2 b)).
  { rewrite (Z.pow_add_r 2 (Zdigits2 a)) by lia. nia. }
  apply Z.pow_lt_mono_r_iff in L; [|lia|lia].
  apply Z.pow_lt_mono_r_iff in U; [|lia|lia]. lia.
Qed.

(** Shifting the mantissa is the floor of the value. *)
Lemma Math_floor_spec m e :
  Z.shiftl (Zpos m) e = Qfloor (inject_Z (Zpos m) * pow2 e).
Proof.
  destruct (Z.le_gt_cases 0 e) as [He|He].
  - rewrite Z.shiftl_mul_pow2 by lia.
    rewrite pow2_Z, <- inject_Z_mult, Qfloor_Z by lia. reflexivity.
  - rewrite <- (Z.opp_involutive e) at 1. rewrite Z.shiftl_opp_r.
    rewrite Z.shiftr_div_pow2 by lia. rewrite Zdiv_Qdiv.
    apply Qfloor_comp. rewrite <- pow2_Z by lia.
    replace e with (- - e) at 2 by lia. rewrite (pow2_opp (- e)). reflexivity.
Qed.

Section Ops.
Variables prc emx : Z.
Hypothesis Hprec : 0 < prc.
Hypothesis Hemax : prc < emx.

Let emin := SpecFloat.emin prc emx.

Lemma shl_align_spec mx ex ex' :
  let '(mz, ez) := shl_align mx ex ex' in
  Zpos mz = Zpos mx * 2 ^ (ex - ez) /\ ez = Z.min ex ex'.
Proof.
  unfold shl_align. destruct (ex' - ex) as [|d|d] eqn:E.
  - replace (ex - ex) with 0 by lia. simpl. lia.
  - replace (ex - ex) with 0 by lia. simpl. lia.
  - rewrite iter_xO. replace (ex - ex') with (Zpos d) by lia. lia.
Qed.

(** [binary_round]: an exact mantissa and exponent, rounded. *)
Theorem binary_round_spec mx ex :
  emin + prc <= Zdigits2 (Zpos mx) + ex < emx ->
  exists m e,
    binary_round prc emx false mx ex = S754_finite false m e /\
    (inject_Z (Zpos m) * pow2 e == Qrnd prc (inject_Z (Zpos mx) * pow2 ex))%Q /\
    Zdigits2 (Zpos mx) + ex <= Zdigits2 (Zpos m) + e <= Zdigits2 (Zpos mx) + ex + 1.
Proof.
  intros H. unfold binary_round.
  pose proof (shl_align_spec mx ex (fexp prc emx (Zpos (digits2_pos mx) + ex))) as S.
  destruct (shl_align mx ex _) as [mz ez]. destruct S as [S1 S2].
  change (Zpos (digits2_pos mx)) with (Zdigits2 (Zpos mx)) in S2.
  rewrite (fexp_normal prc emx) in S2 by (fold emin; lia).
  assert (Hz : 0 <= ex - ez) by lia.
  assert (D : Zdigits2 (Zpos mz) = Zdigits2 (Zpos mx) + (ex - ez)).
  { rewrite S1. apply Zdigits2_shift; lia. }
  assert (V : (inject_Z (Zpos mz) * pow2 ez == inject_Z (Zpos mx) * pow2 ex)%Q).
  { rewrite S1, inject_Z_mult, <- pow2_Z by lia.
    rewrite <- Qmult_assoc, <- pow2_add. replace (ex - ez + ez) with ex by lia. reflexivity. }
  assert (In : inbetween (Zpos mz) loc_Exact (inject_Z (Zpos mz))) by (simpl; reflexivity).
  destruct (binary_round_aux_spec prc emx Hprec (Zpos mz) ez loc_Exact
              (inject_Z (Zpos mz)) ltac:(lia) In) as [m [e [R1 [R2 R3]]]];
    try (fold emin; lia); try (left; reflexivity).
  exists m, e. split; [exact R1|]. split.
  - rewrite R2. apply Qrnd_comp; [exact Hprec| |exact V].
    apply Qmult_lt_0_compat; [reflexivity|apply pow2_pos].
  - lia.
Qed.

(** [SFmul] on positive finite floats rounds the exact product. *)
Theorem SFmul_spec mx ex my ey :
  emin + prc < Zdigits2 (Zpos mx) + ex + (Zdigits2 (Zpos my) + ey) ->
  Zdigits2 (Zpos mx) + ex + (Zdigits2 (Zpos my) + ey) < emx ->
  ex + ey < emx - prc ->
  exists m e,
    SFmul prc emx (S754_finite false mx ex) (S754_finite false my ey)
      = S754_finite false m e /\
    (inject_Z (Zpos m) * pow2 e ==
     Qrnd prc (inject_Z (Zpos mx) * pow2 ex * (inject_Z (Zpos my) * pow2 ey)))%Q /\
    Zdigits2 (Zpos mx) + ex + (Zdigits2 (Zpos my) + ey) - 1 <= Zdigits2 (Zpos m) + e
      <= Zdigits2 (Zpos mx) + ex + (Zdigits2 (Zpos my) + ey) + 1.
Proof.
  intros H1 H2 H3. unfold SFmul. simpl xorb.
  pose proof (Zdigits2_mul (Zpos mx) (Zpos my) ltac:(lia) ltac:(lia)) as D.
  rewrite <- Pos2Z.inj_mul in D.
  assert (In : inbetween (Zpos (mx * my)) loc_Exact (inject_Z (Zpos (mx * my))))
    by (simpl; reflexivity).
  destruct (binary_round_aux_spec prc emx Hprec (Zpos (mx * my)) (ex + ey) loc_Exact
              (inject_Z (Zpos (mx * my))) ltac:(lia) In) as [m [e [R1 [R2 R3]]]];
    try (fold emin; lia); try (left; reflexivity).
  exists m, e. split; [exact R1|]. split.
  - rewrite R2. apply Qrnd_comp; [exact Hprec| |].
    + apply Qmult_lt_0_compat; [reflexivity|apply pow2_pos].
    + rewrite Pos2Z.inj_mul, inject_Z_mult, pow2_add. ring.
  - lia.
Qed.

(** The remainder of the division locates the quotient. *)
Lemma new_location_inbetween my q r :
  0 < my -> 0 <= r < my ->
  inbetween q (new_location my r) (inject_Z (my * q + r) / inject_Z my)%Q.
Proof.
  intros Hmy Hr.
  assert (MY : (0 < inject_Z my)%Q).
  { change 0%Q with (inject_Z 0). rewrite <- Zlt_Qlt. exact Hmy. }
  assert (X : (inject_Z (my * q + r) / inject_Z my == inject_Z q + inject_Z r / inject_Z my)%Q).
  { rewrite inject_Z_plus, inject_Z_mult. field. lra. }
  apply (inbetween_comp _ _ _ _ (Qeq_sym _ _ X)).
  set (t := (inject_Z r / inject_Z my)%Q).
  assert (T : (t * inject_Z my == inject_Z r)%Q) by (unfold t; field; lra).
  assert (R0 : (0 <= inject_Z r)%Q).
  { change 0%Q with (inject_Z 0). rewrite <- Zle_Qle. lia. }
  assert (two : forall a b : Z, 2 * a < b -> (2 * inject_Z a < inject_Z b)%Q).
  { intros a b L. rewrite Zlt_Qlt, inject_Z_mult in L. exact L. }
  assert (half_lt : 2 * r < my -> (t < 1#2)%Q).
  { intros L. apply two in L. apply (Qmult_lt_r _ _ (inject_Z my)); [exact MY|]. lra. }
  assert (half_gt : my < 2 * r -> ((1#2) < t)%Q).
  { intros L. rewrite Zlt_Qlt, inject_Z_mult in L. change (inject_Z 2) with 2%Q in L.
    apply (Qmult_lt_r _ _ (inject_Z my)); [exact MY|]. lra. }
  assert (half_eq : 2 * r = my -> (t == 1#2)%Q).
  { intros L. rewrite <- L, inject_Z_mult in *. change (inject_Z 2) with 2%Q in *.
    apply (Qmult_inj_r _ _ (2 * inject_Z r)); lra. }
  assert (pos : r <> 0 -> (0 < t)%Q).
  { intros L. assert (R1 : (0 < inject_Z r)%Q).
    { change 0%Q with (inject_Z 0). rewrite <- Zlt_Qlt. lia. }
    apply (Qmult_lt_r _ _ (inject_Z my)); [exact MY|]. lra. }
  assert (lt1 : (t < 1)%Q).
  { apply (Qmult_lt_r _ _ (inject_Z my)); [exact MY|].
    assert (L : (inject_Z r < inject_Z my)%Q) by (rewrite <- Zlt_Qlt; lia). lra. }
  unfold new_location, new_location_even, new_location_odd.
  destruct (Z.even my) eqn:Ev.
  - destruct (Z.eqb_spec r 0) as [R|R].
    + subst r. simpl. unfold t. change (inject_Z 0) with 0%Q. field. lra.
    + specialize (pos R).
      destruct (Z.compare_spec (2 * r) my) as [C|C|C]; simpl.
      * specialize (half_eq C). lra.
      * specialize (half_lt C). lra.
      * specialize (half_gt C). lra.
  - destruct (Z.eqb_spec r 0) as [R|R].
    + subst r. simpl. unfold t. change (inject_Z 0) with 0%Q. field. lra.
    + specialize (pos R).
      assert (Odd : 2 * r <> my).
      { intros K. rewrite <- K, Z.even_mul in Ev. discriminate. }
      destruct (Z.compare_spec (2 * r + 1) my) as [C|C|C]; simpl.
      * assert (L : 2 * r < my) by lia. specialize (half_lt L). lra.
      * assert (L : 2 * r < my) by lia. specialize (half_lt L). lra.
      * assert (L : my < 2 * r) by lia. specialize (half_gt L). lra.
Qed.

(** [SFdiv] on positive finite floats rounds the exact quotient. *)
Theorem SFdiv_spec mx ex my ey :
  let E0 := Zdigits2 (Zpos mx) + ex - (Zdigits2 (Zpos my) + ey) in
  emin + prc <= E0 -> E0 + 1 < emx ->
  exists m e,
    SFdiv prc emx (S754_finite false mx ex) (S754_finite false my ey)
      = S754_finite false m e /\
    (inject_Z (Zpos m) * pow2 e ==
     Qrnd prc (inject_Z (Zpos mx) * pow2 ex / (inject_Z (Zpos my) * pow2 ey)))%Q /\
    E0 <= Zdigits2 (Zpos m) + e <= E0 + 2.
Proof.
  intros E0 H1 H2. unfold SFdiv, SFdiv_core_binary. simpl xorb.
  fold E0. rewrite (fexp_normal prc emx) by (fold emin; lia).
  set (e' := Z.min (E0 - prc) (ex - ey)).
  set (s := ex - ey - e').
  assert (Hs : 0 <= s) by (unfold s, e'; lia).
  assert (M' : match s with Zpos _ => Z.shiftl (Zpos mx) s | 0 => Zpos mx | Zneg _ => 0 end
               = Zpos mx * 2 ^ s).
  { destruct s as [|p|p] eqn:Es; try lia.
    rewrite Z.shiftl_mul_pow2 by lia. reflexivity. }
  rewrite M'.
  pose proof (Z_div_mod (Zpos mx * 2 ^ s) (Zpos my) ltac:(lia)) as DM.
  destruct (Z.div_eucl (Zpos mx * 2 ^ s) (Zpos my)) as [q r].
  destruct DM as [DM1 DM2].
  (* bounds on the quotient *)
  set (dx := Zdigits2 (Zpos mx)) in *. set (dy := Zdigits2 (Zpos my)) in *.
  destruct (Zdigits2_bounds (Zpos mx) ltac:(lia)) as [X1 X2]. fold dx in X1, X2.
  destruct (Zdigits2_bounds (Zpos my) ltac:(lia)) as [Y1 Y2]. fold dy in Y1, Y2.
  pose proof (Zdigits2_pos (Zpos mx) ltac:(lia)) as Dx. fold dx in Dx.
  pose proof (Zdigits2_pos (Zpos my) ltac:(lia)) as Dy. fold dy in Dy.
  assert (Hg : prc <= E0 - e') by (unfold e'; lia).
  assert (P2s : 0 < 2 ^ s) by (apply Z.pow_pos_nonneg; lia).
  assert (Qlo : 2 ^ (E0 - e' - 1) <= q).
  { assert (A : 2 ^ (E0 - e' - 1) * 2 ^ dy = 2 ^ (dx - 1) * 2 ^ s).
    { rewrite <- !Z.pow_add_r by lia. f_equal. unfold E0, s. lia. }
    assert (P : 0 < 2 ^ (E0 - e' - 1)) by (apply Z.pow_pos_nonneg; lia).
    destruct (Z.le_gt_cases (2 ^ (E0 - e' - 1)) q) as [L|G]; [exact L|exfalso].
    assert (q + 1 <= 2 ^ (E0 - e' - 1)) by lia. nia. }
  assert (Qhi : q < 2 ^ (E0 - e' + 1)).
  { assert (A : 2 ^ (E0 - e' + 1) * 2 ^ (dy - 1) = 2 ^ dx * 2 ^ s).
    { rewrite <- !Z.pow_add_r by lia. f_equal. unfold E0, s. lia. }
    assert (P : 0 < 2 ^ (dy - 1)) by (apply Z.pow_pos_nonneg; lia).
    destruct (Z.lt_ge_cases q (2 ^ (E0 - e' + 1))) as [L|G]; [exact L|exfalso]. nia. }
  assert (Hq : 0 < q).
  { assert (0 < 2 ^ (E0 - e' - 1)) by (apply Z.pow_pos_nonneg; lia). lia. }
  assert (Dq : E0 - e' <= Zdigits2 q <= E0 - e' + 1).
  { destruct (Zdigits2_bounds q Hq) as [B1 B2].
    pose proof (Zdigits2_pos q Hq).
    assert (L : 2 ^ (E0 - e' - 1) < 2 ^ Zdigits2 q) by lia.
    assert (U : 2 ^ (Zdigits2 q - 1) < 2 ^ (E0 - e' + 1)) by lia.
    apply Z.pow_lt_mono_r_iff in L; [|lia|lia].
    apply Z.pow_lt_mono_r_iff in U; [|lia|lia]. lia. }
  pose proof (new_location_inbetween (Zpos my) q r ltac:(lia) DM2) as In.
  rewrite <- DM1 in In.
  destruct (binary_round_aux_spec prc emx Hprec q e' (new_location (Zpos my) r)
              _ Hq In) as [m [e [R1 [R2 R3]]]];
    try (fold emin; lia); try (unfold e'; lia); try (right; lia).
  exists m, e. split; [exact R1|]. split; [|lia].
  rewrite R2.
  assert (PY : (0 < pow2 ey)%Q) by apply pow2_pos.
  assert (PX : (0 < pow2 ex)%Q) by apply pow2_pos.
  assert (MY : (0 < inject_Z (Zpos my))%Q) by reflexivity.
  assert (MX : (0 < inject_Z (Zpos mx))%Q) by reflexivity.
  apply Qrnd_comp; [exact Hprec| |].
  - apply Qmult_lt_0_compat; [|apply pow2_pos].
    apply Qlt_shift_div_l; [exact MY|]. rewrite Qmult_0_l.
    rewrite inject_Z_mult, <- pow2_Z by lia.
    apply Qmult_lt_0_compat; [exact MX|apply pow2_pos].
  - rewrite inject_Z_mult, <- pow2_Z by lia.
    assert (K : (pow2 ex == pow2 s * pow2 e' * pow2 ey)%Q).
    { rewrite <- !pow2_add. replace (s + e' + ey) with ex by (unfold s; lia). reflexivity. }
    rewrite K. field. split; lra.
Qed.

End Ops.

(** ** Binary64: the percentage as a function of the exact quotient *)

Lemma prec_pos : 0 < prec. Proof. reflexivity. Qed.

Lemma inject_Z_pos k : 0 < k -> (0 < inject_Z k)%Q.
Proof. intros H. change 0%Q with (inject_Z 0). rewrite <- Zlt_Qlt. exact H. Qed.

Lemma Qrnd_Z_exact p k : 0 < p -> 0 < k <= 2 ^ p -> (Qrnd p (inject_Z k) == inject_Z k)%Q.
Proof.
  intros Hp Hk.
  assert (Mag : Qmag (inject_Z k) = Zdigits2 k).
  { assert (E : (inject_Z k == inject_Z k * pow2 0)%Q) by (change (pow2 0) with 1%Q; ring).
    rewrite (Qmag_comp _ _ (inject_Z_pos k ltac:(lia)) E).
    rewrite (scaled_mag k (inject_Z k) 0); [lia|lia| |]; lra. }
  destruct (Zdigits2_bounds k ltac:(lia)) as [B1 B2].
  pose proof (Zdigits2_pos k ltac:(lia)) as Dk.
  destruct (Z.le_gt_cases (Zdigits2 k) p) as [L|G].
  - apply (Qrnd_exact p _ (k * 2 ^ (p - Zdigits2 k)) (inject_Z_pos k ltac:(lia))).
    rewrite Mag, inject_Z_mult, pow2_Z by lia. reflexivity.
  - assert (2 ^ p <= 2 ^ (Zdigits2 k - 1)) by (apply Z.pow_le_mono_r; lia).
    assert (Ek : k = 2 ^ p) by lia.
    assert (Ed : Zdigits2 k = p + 1).
    { apply Zdigits2_unique; [lia|]. replace (p + 1 - 1) with p by lia.
      split; [lia|]. rewrite Ek. apply Z.pow_lt_mono_r; lia. }
    apply (Qrnd_exact p _ (2 ^ (p - 1)) (inject_Z_pos k ltac:(lia))).
    rewrite Mag, Ed, Ek. rewrite <- !pow2_Z by lia. rewrite <- pow2_add.
    replace (p + (p - (p + 1))) with (p - 1) by lia. reflexivity.
Qed.

Lemma Zdigits2_le_pow m n : 0 < m <= 2 ^ n -> 0 <= n -> Zdigits2 m <= n + 1.
Proof.
  intros Hm Hn. destruct (Zdigits2_bounds m ltac:(lia)) as [B1 B2].
  pose proof (Zdigits2_pos m ltac:(lia)).
  destruct (Z.le_gt_cases (Zdigits2 m) (n + 1)) as [L|G]; [exact L|exfalso].
  assert (2 ^ (n + 1) <= 2 ^ (Zdigits2 m - 1)) by (apply Z.pow_le_mono_r; lia).
  assert (2 ^ n < 2 ^ (n + 1)) by (apply Z.pow_lt_mono_r; lia). lia.
Qed.

(** Integers up to [2^53] convert exactly. *)
Lemma Z2SF_spec k : 0 < k <= 2 ^ 53 ->
  exists m e, Z2SF k = S754_finite false m e /\
    (inject_Z (Zpos m) * pow2 e == inject_Z k)%Q /\
    1 <= Zdigits2 (Zpos m) + e <= 55.
Proof.
  intros Hk. destruct k as [|p|p]; try lia.
  unfold Z2SF, binary_normalize.
  pose proof (Zdigits2_le_pow (Zpos p) 53 Hk ltac:(lia)) as D.
  pose proof (Zdigits2_pos (Zpos p) ltac:(lia)) as D0.
  destruct (binary_round_spec prec emax prec_pos p 0) as [m [e [R1 [R2 R3]]]].
  { unfold SpecFloat.emin, prec, emax. lia. }
  exists m, e. split; [exact R1|]. split; [|lia].
  rewrite R2.
  assert (E : (inject_Z (Zpos p) * pow2 0 == inject_Z (Zpos p))%Q)
    by (change (pow2 0) with 1%Q; ring).
  assert (P : (0 < inject_Z (Zpos p) * pow2 0)%Q) by reflexivity.
  rewrite (Qrnd_comp prec prec_pos _ _ P E).
  apply Qrnd_Z_exact; [reflexivity|exact Hk].
Qed.

Lemma Z2SF_100 : Z2SF 100 = S754_finite false 7036874417766400 (-46).
Proof. reflexivity. Qed.

(** [percentComplete] on counts in the exact range: the floor of the
    twice rounded quotient. *)
Lemma percent_at_spec k T : 0 < k <= 2 ^ 53 -> 0 <= T < 2 ^ 53 ->
  percent_at k T = Some (percent_value k (T + 1)).
Proof.
  intros Hk HT. unfold percent_at, percentComplete, percent_value, percent_of_quotient.
  cbn [countChecked nFiles].
  destruct (Z2SF_spec k Hk) as [mk [ek [K1 [K2 K3]]]].
  destruct (Z2SF_spec (T + 1) ltac:(lia)) as [md [ed [D1 [D2 D3]]]].
  rewrite K1, D1, Z2SF_100. unfold js_div, js_mul.
  destruct (SFdiv_spec prec emax prec_pos mk ek md ed) as [mq [eq [Q1 [Q2 Q3]]]].
  { unfold SpecFloat.emin, prec, emax. lia. }
  { unfold prec, emax. lia. }
  rewrite Q1.
  destruct (SFmul_spec prec emax prec_pos mq eq 7036874417766400 (-46)) as [mr [er [R1 [R2 R3]]]].
  { unfold SpecFloat.emin, prec, emax. change (Zdigits2 (Zpos 7036874417766400)) with 53. lia. }
  { unfold prec, emax. change (Zdigits2 (Zpos 7036874417766400)) with 53. lia. }
  { unfold prec, emax. pose proof (Zdigits2_pos (Zpos mq) ltac:(lia)). lia. }
  rewrite R1. simpl Math_floor. f_equal.
  rewrite Math_floor_spec. apply Qfloor_comp. rewrite R2.
  assert (Xk : (0 < inject_Z k)%Q) by (apply inject_Z_pos; lia).
  assert (Xd : (0 < inject_Z (T + 1))%Q) by (apply inject_Z_pos; lia).
  assert (Xq : (0 < inject_Z k / inject_Z (T + 1))%Q).
  { apply Qlt_shift_div_l; [exact Xd|]. lra. }
  assert (V : (inject_Z (Zpos mq) * pow2 eq == Qrnd prec (inject_Z k / inject_Z (T + 1)))%Q).
  { rewrite Q2. apply Qrnd_comp; [reflexivity| |].
    - rewrite K2, D2. exact Xq.
    - rewrite K2, D2. reflexivity. }
  assert (C : (inject_Z (Zpos 7036874417766400) * pow2 (-46) == 100)%Q) by reflexivity.
  apply Qrnd_comp; [reflexivity| |].
  - rewrite V, C. pose proof (Qrnd_pos prec prec_pos _ Xq). lra.
  - rewrite V, C. reflexivity.
Qed.

Lemma percent_value_unfold k d : percent_value k d = percent_of_quotient (inject_Z k / inject_Z d).
Proof. reflexivity. Qed.

Lemma percent_of_quotient_mono x y :
  (0 < x)%Q -> (x <= y)%Q -> percent_of_quotient x <= percent_of_quotient y.
Proof.
  intros Hx H. unfold percent_of_quotient. apply Qfloor_resp_le.
  pose proof (Qrnd_pos prec prec_pos x Hx) as P.
  pose proof (Qrnd_mono prec prec_pos x y Hx H) as M.
  apply (Qrnd_mono prec prec_pos); lra.
Qed.

Lemma percent_of_quotient_comp x y :
  (0 < x)%Q -> (x == y)%Q -> percent_of_quotient x = percent_of_quotient y.
Proof.
  intros Hx H. apply Z.le_antisymm; apply percent_of_quotient_mono; lra.
Qed.

Lemma percent_of_quotient_zero x : (x == 0)%Q -> percent_of_quotient x = 0.
Proof.
  intros H. unfold percent_of_quotient.
  assert (A : forall y, (y == 0)%Q -> (Qrnd prec y == 0)%Q).
  { intros y Hy. unfold Qrnd.
    assert (E : (y * pow2 (prec - Qmag y) == inject_Z 0)%Q).
    { generalize (pow2 (prec - Qmag y)). intros c. rewrite Hy. ring. }
    rewrite (Qrne_comp _ _ E), Qrne_Z. ring. }
  rewrite <- (Qfloor_Z 0). apply Qfloor_comp. apply A. rewrite (A x H). ring.
Qed.

Lemma percent_of_quotient_nonneg x : (0 <= x)%Q -> 0 <= percent_of_quotient x.
Proof.
  intros H. destruct (Qlt_le_dec 0 x) as [P|N].
  - unfold percent_of_quotient. rewrite <- (Qfloor_Z 0). apply Qfloor_resp_le.
    pose proof (Qrnd_pos prec prec_pos x P) as P1.
    assert (P2 : (0 < Qrnd prec x * 100)%Q) by lra.
    pose proof (Qrnd_pos prec prec_pos _ P2). change (inject_Z 0) with 0%Q. lra.
  - rewrite percent_of_quotient_zero; [lia|lra].
Qed.

Lemma Qdiv_pos k d : 0 < k -> 0 < d -> (0 < inject_Z k / inject_Z d)%Q.
Proof.
  intros Hk Hd. apply Qlt_shift_div_l; [apply inject_Z_pos; exact Hd|].
  rewrite Qmult_0_l. apply inject_Z_pos. exact Hk.
Qed.

Lemma Qdiv_le_mono k k' d :
  k <= k' -> 0 < d -> (inject_Z k / inject_Z d <= inject_Z k' / inject_Z d)%Q.
Proof.
  intros H Hd. apply Qmult_le_compat_r.
  - rewrite <- Zle_Qle. exact H.
  - apply Qinv_le_0_compat. apply Qlt_le_weak. apply inject_Z_pos. exact Hd.
Qed.

Lemma percent_value_zero d : percent_value 0 d = 0.
Proof.
  rewrite percent_value_unfold. apply percent_of_quotient_zero.
  unfold Qdiv. change (inject_Z 0) with 0%Q. ring.
Qed.

Lemma percent_value_nonneg k d : 0 <= k -> 0 < d -> 0 <= percent_value k d.
Proof.
  intros Hk Hd. destruct (Z.eq_dec k 0) as [->|N].
  - rewrite percent_value_zero. lia.
  - rewrite percent_value_unfold. apply percent_of_quotient_nonneg.
    apply Qlt_le_weak. apply Qdiv_pos; lia.
Qed.

Lemma percent_value_mono k k' d : 0 <= k <= k' -> 0 < d -> percent_value k d <= percent_value k' d.
Proof.
  intros Hk Hd. destruct (Z.eq_dec k 0) as [->|N].
  - rewrite percent_value_zero. apply percent_value_nonneg; lia.
  - rewrite !percent_value_unfold.
    apply percent_of_quotient_mono; [apply Qdiv_pos; lia|apply Qdiv_le_mono; lia].
Qed.

Lemma percent_value_full d : 0 < d -> percent_value d d = 100.
Proof.
  intros Hd. rewrite percent_value_unfold.
  rewrite (percent_of_quotient_comp _ 1); [reflexivity|apply Qdiv_pos; lia|].
  field. pose proof (inject_Z_pos d Hd). lra.
Qed.

Lemma percent_value_double d : 0 < d -> percent_value (2 * d) d = 200.
Proof.
  intros Hd. rewrite percent_value_unfold.
  rewrite (percent_of_quotient_comp _ 2); [reflexivity|apply Qdiv_pos; lia|].
  rewrite inject_Z_mult. change (inject_Z 2) with 2%Q.
  field. pose proof (inject_Z_pos d Hd). lra.
Qed.

(** Below [2^53] the quotient [T / (T + 1)] is at most [pred_one], and
    [pred_one * 100] rounds to [100 - 2^-46]. *)
Lemma percent_value_below T : 0 <= T < 2 ^ 53 -> percent_value T (T + 1) <= 99.
Proof.
  intros HT. destruct (Z.eq_dec T 0) as [->|N].
  - rewrite percent_value_zero. lia.
  - rewrite percent_value_unfold.
    change 99 with (percent_of_quotient pred_one).
    apply percent_of_quotient_mono; [apply Qdiv_pos; lia|].
    apply Qle_shift_div_r; [apply inject_Z_pos; lia|].
    rewrite inject_Z_plus. change (inject_Z 1) with 1%Q.
    assert (B : (inject_Z (T + 1) <= inject_Z (2 ^ 53))%Q) by (rewrite <- Zle_Qle; lia).
    rewrite inject_Z_plus in B. change (inject_Z 1) with 1%Q in B.
    change (inject_Z (2 ^ 53)) with (9007199254740992 # 1)%Q in B.
    unfold pred_one. lra.
Qed.

(** accuracy against the exact quotient *)
Lemma percent_of_quotient_accuracy x : (0 < x)%Q -> (x <= 1)%Q ->
  (100 * x - 1 < Qrnd prec (Qrnd prec x * 100) /\ Qrnd prec (Qrnd prec x * 100) < 100 * x + 1)%Q.
Proof.
  intros Hx H1.
  pose proof (Qrnd_pos prec prec_pos x Hx) as P1.
  destruct (Qrnd_err prec prec_pos x Hx) as [A1 A2].
  assert (P2 : (0 < Qrnd prec x * 100)%Q) by lra.
  destruct (Qrnd_err prec prec_pos _ P2) as [B1 B2].
  change (pow2 (- prec)) with (1 # 9007199254740992)%Q in *.
  set (y1 := Qrnd prec x) in *. set (y2 := Qrnd prec (y1 * 100)) in *.
  clearbody y1 y2. split; lra.
Qed.

Lemma percent_value_accuracy k d : 0 < k <= d ->
  100 * k / d - 1 <= percent_value k d <= 100 * k / d + 1.
Proof.
  intros H. rewrite percent_value_unfold. unfold percent_of_quotient.
  pose proof (Qdiv_pos k d ltac:(lia) ltac:(lia)) as Hx.
  assert (H1 : (inject_Z k / inject_Z d <= 1)%Q).
  { apply Qle_shift_div_r; [apply inject_Z_pos; lia|]. rewrite Qmult_1_l, <- Zle_Qle. lia. }
  destruct (percent_of_quotient_accuracy _ Hx H1) as [A1 A2].
  set (y := Qrnd prec (Qrnd prec (inject_Z k / inject_Z d) * 100)) in *.
  assert (E : 100 * k / d = Qfloor (100 * (inject_Z k / inject_Z d))).
  { rewrite Zdiv_Qdiv. apply Qfloor_comp. rewrite inject_Z_mult.
    change (inject_Z 100) with 100%Q. field. pose proof (inject_Z_pos d ltac:(lia)). lra. }
  rewrite E. set (x := (100 * (inject_Z k / inject_Z d))%Q) in *.
  pose proof (Qfloor_le x) as F1. pose proof (Qlt_floor x) as F2.
  pose proof (Qfloor_le y) as G1. pose proof (Qlt_floor y) as G2.
  rewrite inject_Z_plus in F2, G2. change (inject_Z 1) with 1%Q in *.
  assert (L : (inject_Z (Qfloor x) < inject_Z (Qfloor y + 2))%Q).
  { rewrite !inject_Z_plus. change (inject_Z 2) with 2%Q. lra. }
  assert (U : (inject_Z (Qfloor y) < inject_Z (Qfloor x + 2))%Q).
  { rewrite !inject_Z_plus. change (inject_Z 2) with 2%Q. lra. }
  rewrite <- Zlt_Qlt in L, U. lia.
Qed.

Lemma percent_value_le_exact k d : 0 < k <= d -> d <= 2 ^ 45 -> percent_value k d <= 100 * k / d.
Proof.
  intros H Hd. rewrite percent_value_unfold. unfold percent_of_quotient.
  pose proof (Qdiv_pos k d ltac:(lia) ltac:(lia)) as Hx.
  pose proof (inject_Z_pos d ltac:(lia)) as PD.
  assert (H1 : (inject_Z k / inject_Z d <= 1)%Q).
  { apply Qle_shift_div_r; [exact PD|]. rewrite Qmult_1_l, <- Zle_Qle. lia. }
  pose proof (Qrnd_pos prec prec_pos _ Hx) as P1.
  destruct (Qrnd_err prec prec_pos _ Hx) as [_ A2].
  assert (P2 : (0 < Qrnd prec (inject_Z k / inject_Z d) * 100)%Q) by lra.
  destruct (Qrnd_err prec prec_pos _ P2) as [_ B2].
  change (pow2 (- prec)) with (1 # 9007199254740992)%Q in *.
  assert (XD : (inject_Z k / inject_Z d * inject_Z d == inject_Z k)%Q) by (field; lra).
  set (x := (inject_Z k / inject_Z d)%Q) in *.
  set (y1 := Qrnd prec x) in *. set (y := Qrnd prec (y1 * 100)) in *.
  clearbody y1 y x.
  set (E := 100 * k / d).
  assert (ZE : 100 * k + 1 <= (E + 1) * d).
  { pose proof (Z_div_mod (100 * k) d ltac:(lia)) as DM.
    unfold E, Z.div. destruct (Z.div_eucl (100 * k) d) as [q r]. nia. }
  rewrite Zle_Qle in ZE, Hd.
  rewrite inject_Z_plus, !inject_Z_mult, inject_Z_plus in ZE.
  change (inject_Z 100) with 100%Q in ZE. change (inject_Z 1) with 1%Q in ZE.
  change (inject_Z (2 ^ 45)) with (35184372088832 # 1)%Q in Hd.
  assert (Y : (y * inject_Z d < (inject_Z E + 1) * inject_Z d)%Q).
  { assert (Y1 : (y <= 100 * x + (1 # 40000000000000))%Q) by lra.
    assert (Y2 : (y * inject_Z d <= (100 * x + (1 # 40000000000000)) * inject_Z d)%Q).
    { apply Qmult_le_compat_r; lra. }
    assert (Y3 : ((100 * x + (1 # 40000000000000)) * inject_Z d
                  == 100 * inject_Z k + (1 # 40000000000000) * inject_Z d)%Q).
    { rewrite <- XD. ring. }
    lra. }
  apply Qmult_lt_r in Y; [|exact PD].
  pose proof (Qfloor_le y) as G1.
  assert (L : (inject_Z (Qfloor y) < inject_Z (E + 1))%Q).
  { rewrite inject_Z_plus. change (inject_Z 1) with 1%Q. lra. }
  rewrite <- Zlt_Qlt in L. lia.
Qed.

(* ================================================================== *)
(** * Part IV: the listener                                            *)
(* ================================================================== *)

Lemma percentComplete_at this :
  percentComplete this = percent_at (countChecked this) (nFiles this).
Proof. reflexivity. Qed.

Lemma percent_at_zero T : 0 <= T < 2 ^ 53 -> percent_at 0 T = Some 0.
Proof.
  intros HT. unfold percent_at, percentComplete. cbn [countChecked nFiles].
  destruct (Z2SF_spec (T + 1) ltac:(lia)) as [md [ed [D1 _]]].
  rewrite D1, Z2SF_100. reflexivity.
Qed.

Lemma percent_at_total k T :
  0 <= k <= 2 ^ 53 -> 0 <= T < 2 ^ 53 -> percent_at k T = Some (percent_value k (T + 1)).
Proof.
  intros Hk HT. destruct (Z.eq_dec k 0) as [->|N].
  - rewrite percent_value_zero. apply percent_at_zero. exact HT.
  - apply percent_at_spec; lia.
Qed.

Lemma percent_spec_div k T : 0 <= T -> percent_spec k T = 100 * k / (T + 1).
Proof.
  intros HT. unfold percent_spec. rewrite Zdiv_Qdiv. apply Qfloor_comp.
  rewrite inject_Z_mult. change (inject_Z 100) with 100%Q.
  field. pose proof (inject_Z_pos (T + 1) ltac:(lia)). lra.
Qed.

(** ** Runs of one listener *)

Lemma run_increments names fs : forall this u h,
  progress this = Some h ->
  run names (map Increment fs) this u =
  (mkListener (countChecked this + Z.of_nat (List.length fs)) (nFiles this) (Some h) (resolve this),
   mkHost (next u) (pending u) (log u ++ reports h (countChecked this) (nFiles this) fs),
   repeat Normal (List.length fs)).
Proof.
  induction fs as [|f fs IH]; intros this u h Hp.
  - destruct this as [c n p r], u as [nx pd lg]. simpl in *. subst p.
    rewrite Z.add_0_r, app_nil_r. reflexivity.
  - cbn [map run handle_notification]. unfold checkFile. rewrite Hp.
    rewrite (IH _ _ h) by reflexivity.
    cbn [countChecked nFiles progress resolve emit next pending log].
    rewrite <- app_assoc. cbn [app List.length repeat reports].
    rewrite !percentComplete_at. cbn [countChecked nFiles].
    replace (countChecked this + 1 + Z.of_nat (List.length fs))
      with (countChecked this + Z.of_nat (S (List.length fs))) by lia.
    reflexivity.
Qed.

Lemma run_start_increments names T fs this u :
  run names (Start T :: map Increment fs) this u =
  (mkListener (Z.of_nat (List.length fs)) T (Some (next u)) (Some (next u)),
   mkHost (S (next u)) (next u :: pending u)
          (log u ++ Acquire (next u) (title names T) 15 :: reports (next u) 0 T fs),
   Normal :: repeat Normal (List.length fs)).
Proof.
  cbn [run handle_notification]. unfold startCheckFiles, withProgress.
  rewrite (run_increments names fs (mkListener 0 T (Some (next u)) (Some (next u))) _
             (next u) eq_refl).
  cbn [countChecked nFiles progress resolve next pending log].
  rewrite <- app_assoc. reflexivity.
Qed.

Lemma increments_app l1 l2 : increments (l1 ++ l2) = increments l1 ++ increments l2.
Proof. unfold increments. apply flat_map_app. Qed.

Lemma increments_reports h fs : forall c T,
  0 <= c -> c + Z.of_nat (List.length fs) <= 2 ^ 53 -> 0 <= T < 2 ^ 53 ->
  increments (reports h c T fs) = map Some (zdeltas c (T + 1) (List.length fs)).
Proof.
  induction fs as [|f fs IH]; intros c T Hc Hk HT; [reflexivity|].
  cbn [reports List.length zdeltas map]. cbn [increments flat_map app].
  change (flat_map _ (reports h (c + 1) T fs)) with (increments (reports h (c + 1) T fs)).
  cbn [List.length] in Hk.
  rewrite IH by lia.
  rewrite !percent_at_total by lia. reflexivity.
Qed.

Lemma zdeltas_length c d k : List.length (zdeltas c d k) = k.
Proof. revert c. induction k; intros c; simpl; [reflexivity|]. rewrite IHk. reflexivity. Qed.

Lemma zdeltas_nth d k : forall c i, (i < k)%nat ->
  nth i (zdeltas c d k) 0 = percent_value (c + Z.of_nat i + 1) d - percent_value (c + Z.of_nat i) d.
Proof.
  induction k as [|k IH]; intros c i Hi; [lia|].
  destruct i as [|i]; simpl nth.
  - rewrite Z.add_0_r. reflexivity.
  - rewrite IH by lia. replace (c + 1 + Z.of_nat i) with (c + Z.of_nat (S i)) by lia.
    reflexivity.
Qed.

Lemma zdeltas_firstn d k : forall c j, (j <= k)%nat ->
  firstn j (zdeltas c d k) = zdeltas c d j.
Proof.
  induction k as [|k IH]; intros c j Hj.
  - replace j with O by lia. reflexivity.
  - destruct j as [|j]; [reflexivity|]. simpl. rewrite IH by lia. reflexivity.
Qed.

Lemma zdeltas_sum d k : forall c,
  fold_right Z.add 0 (zdeltas c d k) = percent_value (c + Z.of_nat k) d - percent_value c d.
Proof.
  induction k as [|k IH]; intros c.
  - simpl. rewrite Z.add_0_r. lia.
  - cbn [zdeltas fold_right]. rewrite IH.
    replace (c + 1 + Z.of_nat k) with (c + Z.of_nat (S k)) by lia. lia.
Qed.

(** ** Host bookkeeping *)

Lemma mem_remove_same h l : mem h (remove_handle h l) = false.
Proof.
  induction l as [|x l IH]; [reflexivity|]. simpl.
  destruct (Nat.eqb h x) eqn:E; [exact IH|]. simpl. rewrite E. exact IH.
Qed.

Lemma mem_remove_other h r l : r <> h -> mem h (remove_handle r l) = mem h l.
Proof.
  intros N. induction l as [|x l IH]; [reflexivity|]. simpl.
  destruct (Nat.eqb r x) eqn:E.
  - apply Nat.eqb_eq in E. subst x.
    assert (F : Nat.eqb h r = false) by (apply Nat.eqb_neq; congruence).
    rewrite F. exact IH.
  - simpl. rewrite IH. reflexivity.
Qed.

Lemma call_resolve_next r u : next (call_resolve r u) = next u.
Proof. unfold call_resolve. destruct (mem r (pending u)); reflexivity. Qed.

Lemma call_resolve_other h r u :
  r <> h -> mem h (pending (call_resolve r u)) = mem h (pending u).
Proof.
  intros N. unfold call_resolve. destruct (mem r (pending u)); [|reflexivity].
  simpl. apply mem_remove_other. exact N.
Qed.

(** Every state reached from a fresh listener is well formed. *)
Lemma wf_step names n this u :
  wf_listener this u ->
  wf_listener (fst (fst (handle_notification names n this u)))
              (snd (fst (handle_notification names n this u))).
Proof.
  intros W. destruct n as [t|f|]; simpl.
  - intros h Hh. simpl in Hh. injection Hh as <-. simpl.
    rewrite Nat.eqb_refl. auto with arith.
  - unfold checkFile. destruct (progress this) as [p|] eqn:Hp; [|exact W].
    intros h Hh. simpl in Hh. injection Hh as <-. simpl.
    apply W. exact Hp.
  - unfold endCheckFiles. destruct (resolve this) as [r|]; intros h Hh; discriminate.
Qed.

Lemma wf_run names ns : forall this u,
  wf_listener this u ->
  wf_listener (final_listener (run names ns this u)) (final_host (run names ns this u)).
Proof.
  induction ns as [|n ns IH]; intros this u W; [exact W|].
  pose proof (wf_step names n this u W) as W'.
  specialize (IH _ _ W').
  simpl. destruct (handle_notification names n this u) as [[this' u'] c].
  simpl in IH. destruct (run names ns this' u') as [[this'' u''] cs]. exact IH.
Qed.

Lemma wf_new u : wf_listener new_progressListener u.
Proof. intros h Hh. discriminate. Qed.

(** A leaked handle stays leaked. *)
Lemma leaked_step names n h this u :
  leaked h this u ->
  leaked h (fst (fst (handle_notification names n this u)))
           (snd (fst (handle_notification names n this u))).
Proof.
  intros [L1 [L2 L3]]. destruct n as [t|f|]; simpl.
  - unfold leaked. simpl. rewrite L2, orb_true_r.
    split; [lia|]. split; [reflexivity|]. intros E. injection E as E. lia.
  - unfold checkFile. destruct (progress this); simpl; unfold leaked; auto.
  - unfold endCheckFiles. destruct (resolve this) as [r|] eqn:Hr; simpl.
    + assert (N : r <> h) by congruence.
      unfold leaked. rewrite call_resolve_next, (call_resolve_other h r u N). simpl.
      split; [exact L1|]. split; [exact L2|]. congruence.
    + unfold leaked. simpl. split; [exact L1|]. split; [exact L2|discriminate].
Qed.

Lemma leaked_run names ns h : forall this u,
  leaked h this u ->
  leaked h (final_listener (run names ns this u)) (final_host (run names ns this u)).
Proof.
  induction ns as [|n ns IH]; intros this u L; [exact L|].
  pose proof (leaked_step names n h this u L) as L'.
  specialize (IH _ _ L').
  simpl. destruct (handle_notification names n this u) as [[this' u'] c].
  simpl in IH. destruct (run names ns this' u') as [[this'' u''] cs]. exact IH.
Qed.

(* ================================================================== *)
(** * Part V: the claims                                               *)
(* ================================================================== *)

(** ** Percentages *)

(** Some values: 1/4 is exact, 29/50, 57/100 and 58/100 are not. *)
Example percent_at_values :
  percent_at 1 3 = Some 25 /\ percent_at 29 49 = Some 57 /\
  percent_at 57 99 = Some 56 /\ percent_at 58 99 = Some 57 /\
  percent_at 99 99 = Some 99 /\ percent_at 0 0 = Some 0.
Proof. vm_compute. repeat split; reflexivity. Qed.

(** C1, counterexample.  With total 99, after 29 increments the listener
    computes 28, while [floor (29 / 100 * 100)] is 29: in binary64,
    [29 / 100 * 100] is [28.999999999999996]. *)
Lemma percent_differs_from_exact_floor :
  let s := final_listener
             (run checkEvent (Start 99 :: map Increment (repeat "f"%string 29%nat))
                  new_progressListener host0) in
  countChecked s = 29 /\ nFiles s = 99 /\
  percentComplete s = Some 28 /\ percent_spec 29 99 = 29.
Proof. vm_compute. repeat split; reflexivity. Qed.

(** C1, amended.  For every total [0 <= T <= 2^53 - 1] and every
    [k <= T], after a start with total [T] and [k] increments the listener
    holds [countChecked = k], [nFiles = T], and its percentage is the floor
    of the binary64 value of [k / (T + 1) * 100]: an integer within one of
    [floor (k / (T + 1) * 100)], never above it when [T < 2^45], and
    non-decreasing in [k]. *)
Theorem percent_within_one_and_monotone names T fs this u :
  0 <= T <= MAX_SAFE_INTEGER ->
  Z.of_nat (List.length fs) <= T ->
  let k := Z.of_nat (List.length fs) in
  let s := final_listener (run names (Start T :: map Increment fs) this u) in
  countChecked s = k /\ nFiles s = T /\
  exists p,
    percentComplete s = Some p /\
    percent_spec k T - 1 <= p <= percent_spec k T + 1 /\
    (T < 2 ^ 45 -> p <= percent_spec k T) /\
    forall fs', k <= Z.of_nat (List.length fs') <= T ->
      exists p',
        percentComplete
          (final_listener (run names (Start T :: map Increment fs') this u)) = Some p' /\
        p <= p'.
Proof.
  intros HT Hk k s. unfold MAX_SAFE_INTEGER in HT.
  assert (Es : s = mkListener k T (Some (next u)) (Some (next u))).
  { unfold s. rewrite run_start_increments. reflexivity. }
  rewrite Es. cbn [countChecked nFiles]. split; [reflexivity|]. split; [reflexivity|].
  exists (percent_value k (T + 1)).
  rewrite percentComplete_at. cbn [countChecked nFiles].
  assert (K0 : 0 <= k) by (unfold k; lia).
  split; [apply percent_at_total; lia|].
  rewrite percent_spec_div by lia.
  split; [|split].
  - destruct (Z.eq_dec k 0) as [E|N].
    + rewrite E, percent_value_zero. rewrite Z.mul_0_r, Z.div_0_l by lia. lia.
    + apply percent_value_accuracy. lia.
  - intros HT'. destruct (Z.eq_dec k 0) as [E|N].
    + rewrite E, percent_value_zero. rewrite Z.mul_0_r, Z.div_0_l by lia. lia.
    + apply percent_value_le_exact; lia.
  - intros fs' Hk'. exists (percent_value (Z.of_nat (List.length fs')) (T + 1)).
    rewrite run_start_increments. unfold final_listener. cbn [fst].
    rewrite percentComplete_at. cbn [countChecked nFiles].
    split; [apply percent_at_total; lia|].
    apply percent_value_mono; lia.
Qed.

Lemma percent_within_one_and_monotone_witness :
  0 <= 3 <= MAX_SAFE_INTEGER /\
  Z.of_nat (List.length ["a"; "b"]%string) <= 3 /\
  let s := final_listener
             (run checkEvent (Start 3 :: map Increment ["a"; "b"]%string)
                  new_progressListener host0) in
  countChecked s = 2 /\ nFiles s = 3 /\
  exists p,
    percentComplete s = Some p /\
    percent_spec 2 3 - 1 <= p <= percent_spec 2 3 + 1 /\
    (3 < 2 ^ 45 -> p <= percent_spec 2 3) /\
    forall fs', 2 <= Z.of_nat (List.length fs') <= 3 ->
      exists p',
        percentComplete
          (final_listener
             (run checkEvent (Start 3 :: map Increment fs') new_progressListener host0))
          = Some p' /\
        p <= p'.
Proof.
  split; [unfold MAX_SAFE_INTEGER; lia|]. split; [simpl; lia|].
  apply (percent_within_one_and_monotone checkEvent 3 ["a"; "b"]%string
           new_progressListener host0).
  - unfold MAX_SAFE_INTEGER. lia.
  - simpl. lia.
Defined.

(** C6, counterexample.  At [T = 2^53] the double [T + 1] is [T] itself,
    the quotient is 1 and the percentage is 100. *)
Lemma percent_reaches_100_at_2p53 :
  percentComplete (mkListener (2 ^ 53) (2 ^ 53) (Some 0%nat) (Some 0%nat)) = Some 100 /\
  ~ 100 < 100.
Proof. split; [vm_compute; reflexivity|lia]. Qed.

(** C6, amended.  For every total [0 <= T <= 2^53 - 1], the percentage
    computed when [countChecked = nFiles = T] is below 100. *)
Theorem percent_below_100_when_complete T pr rs :
  0 <= T <= MAX_SAFE_INTEGER ->
  exists p, percentComplete (mkListener T T pr rs) = Some p /\ p < 100.
Proof.
  intros HT. unfold MAX_SAFE_INTEGER in HT.
  exists (percent_value T (T + 1)). rewrite percentComplete_at. cbn [countChecked nFiles].
  split; [apply percent_at_total; lia|].
  pose proof (percent_value_below T ltac:(lia)). lia.
Qed.

Lemma percent_below_100_when_complete_witness :
  0 <= 7 <= MAX_SAFE_INTEGER /\
  exists p, percentComplete (mkListener 7 7 (Some 0%nat) (Some 0%nat)) = Some p /\ p < 100.
Proof.
  split; [unfold MAX_SAFE_INTEGER; lia|].
  apply (percent_below_100_when_complete 7 (Some 0%nat) (Some 0%nat)).
  unfold MAX_SAFE_INTEGER. lia.
Defined.

(** C7.  In a run with total [T], every reported delta is
    [newPercent - oldPercent] and is not negative, and the first [k] deltas
    sum to [percent k T - percent 0 T].  Counts are within the range of
    exact integers of a double. *)
Theorem deltas_nonnegative_and_telescope names T fs this u :
  0 <= T <= MAX_SAFE_INTEGER ->
  Z.of_nat (List.length fs) <= 2 ^ 53 ->
  let r := run names (Start T :: map Increment fs) this u in
  exists ds : list Z,
    increments (log (final_host r)) = increments (log u) ++ map Some ds /\
    List.length ds = List.length fs /\
    (forall i, (i < List.length fs)%nat ->
       exists oldPercent newPercent,
         percent_at (Z.of_nat i) T = Some oldPercent /\
         percent_at (Z.of_nat i + 1) T = Some newPercent /\
         nth i ds 0 = newPercent - oldPercent /\
         0 <= nth i ds 0) /\
    (forall k, (k <= List.length fs)%nat ->
       exists p0 pk,
         percent_at 0 T = Some p0 /\
         percent_at (Z.of_nat k) T = Some pk /\
         fold_right Z.add 0 (firstn k ds) = pk - p0).
Proof.
  intros HT Hk r. unfold MAX_SAFE_INTEGER in HT.
  exists (zdeltas 0 (T + 1) (List.length fs)).
  split; [|split; [|split]].
  - unfold r. rewrite run_start_increments. unfold final_host. cbn [fst snd log].
    rewrite increments_app. f_equal.
    change (Acquire (next u) (title names T) 15 :: reports (next u) 0 T fs)
      with ([Acquire (next u) (title names T) 15] ++ reports (next u) 0 T fs).
    rewrite increments_app. cbn [increments flat_map app].
    apply increments_reports; lia.
  - apply zdeltas_length.
  - intros i Hi.
    exists (percent_value (Z.of_nat i) (T + 1)), (percent_value (Z.of_nat i + 1) (T + 1)).
    rewrite !percent_at_total by lia.
    rewrite zdeltas_nth by exact Hi. rewrite Z.add_0_l.
    split; [reflexivity|]. split; [reflexivity|]. split; [reflexivity|].
    pose proof (percent_value_mono (Z.of_nat i) (Z.of_nat i + 1) (T + 1)
                  ltac:(lia) ltac:(lia)).
    lia.
  - intros k Hk'.
    exists (percent_value 0 (T + 1)), (percent_value (Z.of_nat k) (T + 1)).
    rewrite !percent_at_total by lia.
    split; [reflexivity|]. split; [reflexivity|].
    rewrite zdeltas_firstn by exact Hk'. rewrite zdeltas_sum, Z.add_0_l. reflexivity.
Qed.

Lemma deltas_nonnegative_and_telescope_witness :
  0 <= 3 <= MAX_SAFE_INTEGER /\
  Z.of_nat (List.length ["a"; "b"; "c"]%string) <= 2 ^ 53 /\
  let r := run checkEvent (Start 3 :: map Increment ["a"; "b"; "c"]%string)
               new_progressListener host0 in
  exists ds : list Z,
    increments (log (final_host r)) = increments (log host0) ++ map Some ds /\
    List.length ds = List.length ["a"; "b"; "c"]%string /\
    (forall i, (i < List.length ["a"; "b"; "c"]%string)%nat ->
       exists oldPercent newPercent,
         percent_at (Z.of_nat i) 3 = Some oldPercent /\
         percent_at (Z.of_nat i + 1) 3 = Some newPercent /\
         nth i ds 0 = newPercent - oldPercent /\
         0 <= nth i ds 0) /\
    (forall k, (k <= List.length ["a"; "b"; "c"]%string)%nat ->
       exists p0 pk,
         percent_at 0 3 = Some p0 /\
         percent_at (Z.of_nat k) 3 = Some pk /\
         fold_right Z.add 0 (firstn k ds) = pk - p0).
Proof.
  split; [unfold MAX_SAFE_INTEGER; lia|]. split; [simpl; lia|].
  apply (deltas_nonnegative_and_telescope checkEvent 3 ["a"; "b"; "c"]%string
           new_progressListener host0).
  - unfold MAX_SAFE_INTEGER. lia.
  - simpl. lia.
Defined.

(** C10.  While a surface is held every increment raises [countChecked]
    by one whatever [nFiles] is, with a delta that is not negative; after
    [nFiles + 1] increments the percentage is 100, it stays at least 100
    from there on, and after [2 * (nFiles + 1)] increments it is 200. *)
Theorem increments_not_capped T k h rs f u :
  0 <= T <= MAX_SAFE_INTEGER ->
  0 <= k < 2 ^ 53 ->
  (exists d,
     checkFile f (mkListener k T (Some h) rs) u =
       (mkListener (k + 1) T (Some h) rs, emit (Report h f (Some d)) u, Normal) /\
     0 <= d) /\
  percent_at (T + 1) T = Some 100 /\
  (T + 1 <= k -> exists p, percent_at k T = Some p /\ 100 <= p) /\
  (2 * (T + 1) <= 2 ^ 53 -> percent_at (2 * (T + 1)) T = Some 200).
Proof.
  intros HT Hk. unfold MAX_SAFE_INTEGER in HT.
  split; [|split; [|split]].
  - exists (percent_value (k + 1) (T + 1) - percent_value k (T + 1)). split.
    + unfold checkFile. cbn [progress countChecked nFiles resolve].
      rewrite !percentComplete_at. cbn [countChecked nFiles].
      rewrite !percent_at_total by lia. reflexivity.
    + pose proof (percent_value_mono k (k + 1) (T + 1) ltac:(lia) ltac:(lia)). lia.
  - rewrite percent_at_total by lia. rewrite percent_value_full by lia. reflexivity.
  - intros Hk'. exists (percent_value k (T + 1)). split; [apply percent_at_total; lia|].
    rewrite <- (percent_value_full (T + 1)) by lia. apply percent_value_mono; lia.
  - intros H2. rewrite percent_at_total by lia. rewrite percent_value_double by lia. reflexivity.
Qed.

Lemma increments_not_capped_witness :
  0 <= 1 <= MAX_SAFE_INTEGER /\ 0 <= 2 < 2 ^ 53 /\
  (exists d,
     checkFile "f" (mkListener 2 1 (Some 0%nat) (Some 0%nat)) host0 =
       (mkListener (2 + 1) 1 (Some 0%nat) (Some 0%nat),
        emit (Report 0%nat "f" (Some d)) host0, Normal) /\
     0 <= d) /\
  percent_at (1 + 1) 1 = Some 100 /\
  (1 + 1 <= 2 -> exists p, percent_at 2 1 = Some p /\ 100 <= p) /\
  (2 * (1 + 1) <= 2 ^ 53 -> percent_at (2 * (1 + 1)) 1 = Some 200).
Proof.
  split; [unfold MAX_SAFE_INTEGER; lia|]. split; [lia|].
  apply (increments_not_capped 1 2 0%nat (Some 0%nat) "f"%string host0).
  - unfold MAX_SAFE_INTEGER. lia.
  - lia.
Defined.

(** ** The state machine *)

(** C2, the code at the failing input.  An end notification delivered to
    a listener that has never been started finds [this.resolve]
    undefined: the three fields are assigned and the call throws a
    [TypeError], through the handler registered for the end identifier as
    well. *)
Theorem end_before_any_start_throws :
  endCheckFiles new_progressListener host0 =
    (new_progressListener, host0, Throw (TypeError "this.resolve is not a function")) /\
  deliver [("fsharp/endCheckFiles"%string, PNone)] registry =
    Some (registry, [Throw (TypeError "this.resolve is not a function")]).
Proof. split; reflexivity. Qed.

(** C3, counterexample.  Two starts in a row leave two surfaces open;
    nothing is released, not even by the end that follows: the first
    surface stays open. *)
Lemma second_start_releases_nothing :
  let r := run checkEvent [Start 1; Start 2] new_progressListener host0 in
  let r' := run checkEvent [Start 1; Start 2; End] new_progressListener host0 in
  pending (final_host r) = [1%nat; 0%nat] /\
  log (final_host r) = [Acquire 0%nat "Check 1 files" 15; Acquire 1%nat "Check 2 files" 15] /\
  pending (final_host r') = [0%nat] /\
  count_release 0%nat (log (final_host r')) = 0%nat.
Proof. vm_compute. repeat split; reflexivity. Qed.

(** C3, amended.  In every state reached from a fresh listener in which
    a surface is held, a start notification acquires a new surface and
    overwrites the stored handle and callback without releasing the
    surface held before: both are open after the start, and whatever
    notifications follow, the earlier surface is never released. *)
Theorem start_while_active_leaks names ns n h :
  let r0 := run names ns new_progressListener host0 in
  let this := final_listener r0 in
  let u := final_host r0 in
  progress this = Some h ->
  let r := startCheckFiles names n this u in
  r = (mkListener 0 n (Some (next u)) (Some (next u)),
       mkHost (S (next u)) (next u :: pending u)
              (log u ++ [Acquire (next u) (title names n) 15]),
       Normal) /\
  mem h (pending (snd (fst r))) = true /\
  mem (next u) (pending (snd (fst r))) = true /\
  h <> next u /\
  forall ns',
    mem h (pending (final_host (run names ns' (fst (fst r)) (snd (fst r))))) = true.
Proof.
  intros r0 this u Hp r.
  pose proof (wf_run names ns new_progressListener host0 (wf_new host0)) as W.
  fold r0 in W. fold this in W. fold u in W.
  destruct (W h Hp) as [_ [Hm Hlt]].
  assert (Er : r = (mkListener 0 n (Some (next u)) (Some (next u)),
                    mkHost (S (next u)) (next u :: pending u)
                           (log u ++ [Acquire (next u) (title names n) 15]),
                    Normal)) by reflexivity.
  split; [exact Er|]. rewrite Er. cbn [fst snd pending mem].
  split; [rewrite Hm; apply orb_true_r|].
  split; [rewrite Nat.eqb_refl; reflexivity|].
  split; [lia|].
  intros ns'.
  apply (leaked_run names ns' h). unfold leaked. cbn [next pending resolve mem].
  split; [lia|]. split; [rewrite Hm; apply orb_true_r|].
  intros E. injection E as E. lia.
Qed.

Lemma start_while_active_leaks_witness :
  let r0 := run checkEvent [Start 5; Increment "a"] new_progressListener host0 in
  let this := final_listener r0 in
  let u := final_host r0 in
  progress this = Some 0%nat /\
  let r := startCheckFiles checkEvent 2 this u in
  r = (mkListener 0 2 (Some (next u)) (Some (next u)),
       mkHost (S (next u)) (next u :: pending u)
              (log u ++ [Acquire (next u) (title checkEvent 2) 15]),
       Normal) /\
  mem 0%nat (pending (snd (fst r))) = true /\
  mem (next u) (pending (snd (fst r))) = true /\
  0%nat <> next u /\
  forall ns',
    mem 0%nat (pending (final_host (run checkEvent ns' (fst (fst r)) (snd (fst r))))) = true.
Proof.
  intros r0 this u. split; [reflexivity|].
  apply (start_while_active_leaks checkEvent [Start 5; Increment "a"%string] 2 0%nat).
  reflexivity.
Defined.

(** C4.  An increment received while no surface is held, that is with
    [progress] undefined (before any start) or null (after an end),
    reports nothing, changes no field and completes normally. *)
Theorem increment_without_surface_is_noop fileName this u :
  progress this = None ->
  checkFile fileName this u = (this, u, Normal).
Proof.
  intros H. unfold checkFile. rewrite H. reflexivity.
Qed.

Lemma increment_without_surface_is_noop_witness :
  progress new_progressListener = None /\
  checkFile "x" new_progressListener host0 = (new_progressListener, host0, Normal).
Proof.
  split; [reflexivity|].
  apply (increment_without_surface_is_noop "x"%string new_progressListener host0).
  reflexivity.
Defined.

(** The two idle situations of C4: a fresh listener, and any listener
    after [endCheckFiles]. *)
Lemma no_surface_when_idle this u :
  progress new_progressListener = None /\
  progress (fst (fst (endCheckFiles this u))) = None.
Proof.
  split; [reflexivity|]. unfold endCheckFiles. destruct (resolve this); reflexivity.
Qed.

(** C5, counterexample.  After start and end the [resolve] field still
    holds the callback of the finished run. *)
Lemma end_keeps_release_callback :
  let r := run checkEvent [Start 0; End] new_progressListener host0 in
  resolve (final_listener r) = Some 0%nat /\ resolve (final_listener r) <> None.
Proof. vm_compute. split; [reflexivity|discriminate]. Qed.

(** C5, amended.  In every state reached from a fresh listener in which a
    surface is held, handling an end notification sets [countChecked] and
    [nFiles] to 0 and [progress] to null, calls the stored [resolve] once,
    which releases the surface, and completes normally; the [resolve]
    field keeps the callback, so that a second end calls it again without
    releasing anything. *)
Theorem end_while_active names ns h :
  let r := run names ns new_progressListener host0 in
  let this := final_listener r in
  let u := final_host r in
  progress this = Some h ->
  endCheckFiles this u =
    (mkListener 0 0 None (Some h),
     mkHost (next u) (remove_handle h (pending u)) (log u ++ [CallResolve h; Release h]),
     Normal) /\
  endCheckFiles (mkListener 0 0 None (Some h))
                (mkHost (next u) (remove_handle h (pending u))
                        (log u ++ [CallResolve h; Release h])) =
    (mkListener 0 0 None (Some h),
     mkHost (next u) (remove_handle h (pending u))
            (log u ++ [CallResolve h; Release h] ++ [CallResolve h]),
     Normal).
Proof.
  intros r this u Hp.
  pose proof (wf_run names ns new_progressListener host0 (wf_new host0)) as W.
  fold r in W. fold this in W. fold u in W.
  destruct (W h Hp) as [Hr [Hm _]].
  split.
  - unfold endCheckFiles, call_resolve. rewrite Hr, Hm. reflexivity.
  - unfold endCheckFiles, call_resolve. cbn [resolve pending].
    rewrite mem_remove_same. unfold emit. cbn [next pending log].
    rewrite <- app_assoc. reflexivity.
Qed.

Lemma end_while_active_witness :
  let r := run checkEvent [Start 2; Increment "a"] new_progressListener host0 in
  let this := final_listener r in
  let u := final_host r in
  progress this = Some 0%nat /\
  endCheckFiles this u =
    (mkListener 0 0 None (Some 0%nat),
     mkHost (next u) (remove_handle 0%nat (pending u))
            (log u ++ [CallResolve 0%nat; Release 0%nat]),
     Normal) /\
  endCheckFiles (mkListener 0 0 None (Some 0%nat))
                (mkHost (next u) (remove_handle 0%nat (pending u))
                        (log u ++ [CallResolve 0%nat; Release 0%nat])) =
    (mkListener 0 0 None (Some 0%nat),
     mkHost (next u) (remove_handle 0%nat (pending u))
            (log u ++ [CallResolve 0%nat; Release 0%nat] ++ [CallResolve 0%nat]),
     Normal).
Proof.
  intros r this u. split; [reflexivity|].
  apply (end_while_active checkEvent [Start 2; Increment "a"%string] 0%nat).
  reflexivity.
Defined.

(** C8.  The notifications start(3), increment a, b, c, end, delivered
    to the registry: one surface is acquired, titled [title checkEvent 3],
    the deltas are 25, 25, 25 (percentages 0, 25, 50, 75), and the surface
    is released once, after the third report. *)
Theorem scenario_three_files :
  exists w,
    deliver [("fsharp/startCheckFiles", PNumber 3); ("fsharp/checkFile", PString "a");
             ("fsharp/checkFile", PString "b"); ("fsharp/checkFile", PString "c");
             ("fsharp/endCheckFiles", PNone)]%string registry
      = Some (w, [Normal; Normal; Normal; Normal; Normal]) /\
    log (ui w) = [Acquire 0%nat (title checkEvent 3) 15;
                  Report 0%nat "a" (Some 25); Report 0%nat "b" (Some 25);
                  Report 0%nat "c" (Some 25);
                  CallResolve 0%nat; Release 0%nat] /\
    title checkEvent 3 = "Check 3 files"%string /\
    map (fun k => percent_at k 3) [0; 1; 2; 3] = [Some 0; Some 25; Some 50; Some 75] /\
    count_acquire (log (ui w)) = 1%nat /\
    count_release 0%nat (log (ui w)) = 1%nat /\
    pending (ui w) = [].
Proof.
  eexists. split; [vm_compute; reflexivity|].
  vm_compute. repeat split; reflexivity.
Qed.

(** ** The registry *)

Lemma update_length i x l : List.length (update i x l) = List.length l.
Proof.
  revert i. induction l as [|y l IH]; intros i; [destruct i; reflexivity|].
  destruct i; simpl; [reflexivity|]. rewrite IH. reflexivity.
Qed.

Lemma nth_error_update_other i j x l :
  i <> j -> nth_error (update i x l) j = nth_error l j.
Proof.
  revert i j. induction l as [|y l IH]; intros i j N; [destruct i; reflexivity|].
  destruct i as [|i], j as [|j]; simpl; try reflexivity; try congruence.
  apply IH. congruence.
Qed.

Lemma invoke_spec obj f w w' c :
  invoke obj f w = Some (w', c) ->
  handlers w' = handlers w /\
  List.length (heap w') = List.length (heap w) /\
  forall j, j <> obj -> nth_error (heap w') j = nth_error (heap w) j.
Proof.
  unfold invoke. destruct (nth_error (heap w) obj) as [this|]; [|discriminate].
  destruct (f this (ui w)) as [[this' u'] c']. intros E. injection E as <- <-.
  cbn [handlers heap]. split; [reflexivity|]. split; [apply update_length|].
  intros j N. apply nth_error_update_other. congruence.
Qed.

(** What one notification can touch: the handlers and the number of
    objects stay, and so does every object but the one the handler of
    [method] closes over. *)
Lemma notify_spec method p w w' c :
  notify method p w = Some (w', c) ->
  handlers w' = handlers w /\
  List.length (heap w') = List.length (heap w) /\
  forall j,
    match lookup method (handlers w) with
    | Some (OnStart _ obj) | Some (OnIncrement obj) | Some (OnEnd obj) => j <> obj
    | None => True
    end ->
    nth_error (heap w') j = nth_error (heap w) j.
Proof.
  unfold notify. destruct (lookup method (handlers w)) as [[names obj|obj|obj]|].
  - destruct p; try discriminate. apply invoke_spec.
  - destruct p; try discriminate. apply invoke_spec.
  - apply invoke_spec.
  - intros E. injection E as <- <-. auto.
Qed.

Lemma registry_inv_notify method p w w' c :
  registry_inv w -> notify method p w = Some (w', c) -> registry_inv w'.
Proof.
  intros [I1 I2] E. destruct (notify_spec _ _ _ _ _ E) as [H1 [H2 _]].
  split; congruence.
Qed.

Lemma registry_inv_deliver ns : forall w w' cs,
  registry_inv w -> deliver ns w = Some (w', cs) -> registry_inv w'.
Proof.
  induction ns as [|[m p] ns IH]; intros w w' cs I E.
  - simpl in E. injection E as <- <-. exact I.
  - simpl in E. destruct (notify m p w) as [[w1 c]|] eqn:N; [|discriminate].
    destruct (deliver ns w1) as [[w2 cs']|] eqn:D; [|discriminate].
    injection E as <- <-.
    apply (IH w1 w2 cs'); [|exact D].
    apply (registry_inv_notify m p w w1 c I N).
Qed.

Lemma registry_inv_init : registry_inv registry.
Proof. split; reflexivity. Qed.

Lemma nth_error_update_same i x y l :
  nth_error l i = Some y -> nth_error (update i x l) i = Some x.
Proof.
  revert i. induction l as [|z l IH]; intros i H; [destruct i; discriminate|].
  destruct i as [|i]; simpl in *; [reflexivity|]. apply IH. exact H.
Qed.

Lemma update_update i x y l : update i x (update i y l) = update i x l.
Proof.
  revert i. induction l as [|z l IH]; intros i; [destruct i; reflexivity|].
  destruct i as [|i]; simpl; [reflexivity|]. rewrite IH. reflexivity.
Qed.

Lemma update_same i x l : nth_error l i = Some x -> update i x l = l.
Proof.
  revert i. induction l as [|z l IH]; intros i H; [destruct i; reflexivity|].
  destruct i as [|i]; simpl in *; [congruence|]. rewrite IH by exact H. reflexivity.
Qed.

Lemma lookup_registry names obj :
  (names, obj) = (checkEvent, 0%nat) \/ (names, obj) = (analyzeEvent, 1%nat) ->
  lookup (startEvent names) (handlers registry) = Some (OnStart names obj) /\
  lookup (incrementEvent names) (handlers registry) = Some (OnIncrement obj) /\
  lookup (endEvent names) (handlers registry) = Some (OnEnd obj).
Proof.
  intros [C|C]; injection C as -> ->; repeat split; reflexivity.
Qed.

(** The wiring: a notification of a class, sent under the identifier of
    the class, runs the matching method on the listener of the class. *)
Lemma notify_registry names obj n w this :
  (names, obj) = (checkEvent, 0%nat) \/ (names, obj) = (analyzeEvent, 1%nat) ->
  handlers w = handlers registry ->
  nth_error (heap w) obj = Some this ->
  notify (fst (message_of names n)) (snd (message_of names n)) w =
    Some (mkWorld (update obj (fst (fst (handle_notification names n this (ui w)))) (heap w))
                  (handlers w)
                  (snd (fst (handle_notification names n this (ui w)))),
          snd (handle_notification names n this (ui w))).
Proof.
  intros C Hh Hn. destruct (lookup_registry names obj C) as [L1 [L2 L3]].
  destruct n as [t|f|]; unfold notify; rewrite Hh; cbn [message_of fst snd].
  - rewrite L1. unfold invoke. rewrite Hn. cbn [handle_notification].
    destruct (startCheckFiles names t this (ui w)) as [[this' u'] c']. rewrite Hh. reflexivity.
  - rewrite L2. unfold invoke. rewrite Hn. cbn [handle_notification].
    destruct (checkFile f this (ui w)) as [[this' u'] c']. rewrite Hh. reflexivity.
  - rewrite L3. unfold invoke. rewrite Hn. cbn [handle_notification].
    destruct (endCheckFiles this (ui w)) as [[this' u'] c']. rewrite Hh. reflexivity.
Qed.

(** Driving the registry with the messages of one class is [run] on the
    listener of that class. *)
Lemma deliver_registry_run names obj ns :
  (names, obj) = (checkEvent, 0%nat) \/ (names, obj) = (analyzeEvent, 1%nat) ->
  forall w this,
  handlers w = handlers registry ->
  nth_error (heap w) obj = Some this ->
  deliver (map (message_of names) ns) w =
    Some (mkWorld (update obj (final_listener (run names ns this (ui w))) (heap w))
                  (handlers w)
                  (final_host (run names ns this (ui w))),
          completions (run names ns this (ui w))).
Proof.
  intros C. induction ns as [|n ns IH]; intros w this Hh Hn.
  - cbn [map deliver run final_listener final_host completions fst snd].
    rewrite (update_same _ _ _ Hn). destruct w; reflexivity.
  - cbn [map deliver].
    pose proof (notify_registry names obj n w this C Hh Hn) as N.
    destruct (message_of names n) as [m p]. cbn [fst snd] in N. rewrite N.
    rewrite (IH _ (fst (fst (handle_notification names n this (ui w))))).
    + cbn [heap handlers ui run]. rewrite update_update.
      destruct (handle_notification names n this (ui w)) as [[this' u'] c].
      cbn [fst snd]. destruct (run names ns this' u') as [[this'' u''] cs].
      reflexivity.
    + exact Hh.
    + cbn [heap]. apply (nth_error_update_same _ _ this). exact Hn.
Qed.

(** C9.  After any sequence of notifications delivered to the registry,
    a notification addressed to one of the three identifiers of
    [checkEvent] leaves the listener of [analyzeEvent] (object 1) as it
    is, with its four fields, and a notification addressed to one of the
    identifiers of [analyzeEvent] leaves the listener of [checkEvent]
    (object 0) as it is. *)
Theorem listeners_do_not_interfere ns w cs method p w' c :
  deliver ns registry = Some (w, cs) ->
  notify method p w = Some (w', c) ->
  (In method [startEvent checkEvent; incrementEvent checkEvent; endEvent checkEvent] ->
   nth_error (heap w') 1 = nth_error (heap w) 1) /\
  (In method [startEvent analyzeEvent; incrementEvent analyzeEvent; endEvent analyzeEvent] ->
   nth_error (heap w') 0 = nth_error (heap w) 0).
Proof.
  intros D N.
  pose proof (registry_inv_deliver ns registry w cs registry_inv_init D) as [I1 _].
  destruct (notify_spec _ _ _ _ _ N) as [_ [_ H]].
  rewrite I1 in H.
  split; intros Hin; apply H; simpl in Hin;
    destruct Hin as [<-|[<-|[<-|[]]]]; vm_compute; discriminate.
Qed.

Lemma listeners_do_not_interfere_witness :
  exists w w',
    deliver [("fsharp/startCheckFiles", PNumber 3);
             ("fsharp/startAnalyzeProjects", PNumber 2);
             ("fsharp/checkFile", PString "a")]%string registry
      = Some (w, [Normal; Normal; Normal]) /\
    notify "fsharp/analyzeProject" (PString "p") w = Some (w', Normal) /\
    nth_error (heap w') 0 = nth_error (heap w) 0 /\
    nth_error (heap w) 0 = Some (mkListener 1 3 (Some 0%nat) (Some 0%nat)) /\
    nth_error (heap w') 1 = Some (mkListener 1 2 (Some 1%nat) (Some 1%nat)).
Proof.
  eexists. eexists.
  split; [vm_compute; reflexivity|].
  split; [vm_compute; reflexivity|].
  split.
  - refine (proj2 (listeners_do_not_interfere
               [("fsharp/startCheckFiles", PNumber 3);
                ("fsharp/startAnalyzeProjects", PNumber 2);
                ("fsharp/checkFile", PString "a")]%string
               _ _ "fsharp/analyzeProject"%string (PString "p") _ _ _ _) _).
    + vm_compute. reflexivity.
    + vm_compute. reflexivity.
    + simpl. right. left. reflexivity.
  - split; vm_compute; reflexivity.
Defined.

(* ================================================================== *)
(** * Part VI: further properties of the code                          *)
(* ================================================================== *)

(** ** Bookkeeping of the host *)


Lemma count_acquire_app l1 l2 :
  count_acquire (l1 ++ l2) = (count_acquire l1 + count_acquire l2)%nat.
Proof.
  induction l1 as [|e l1 IH]; [reflexivity|].
  destruct e; simpl; rewrite IH; lia.
Qed.




Lemma run_snoc_shape names ns : forall this u,
  run names ns this u =
  (final_listener (run names ns this u), final_host (run names ns this u),
   completions (run names ns this u)).
Proof.
  intros this u. destruct (run names ns this u) as [[a b] c]. reflexivity.
Qed.

Lemma run_cons names n ns this u :
  run names (n :: ns) this u =
  (final_listener (run names ns (fst (fst (handle_notification names n this u)))
                                (snd (fst (handle_notification names n this u)))),
   final_host (run names ns (fst (fst (handle_notification names n this u)))
                            (snd (fst (handle_notification names n this u)))),
   snd (handle_notification names n this u)
     :: completions (run names ns (fst (fst (handle_notification names n this u)))
                                  (snd (fst (handle_notification names n this u))))).
Proof.
  cbn [run]. destruct (handle_notification names n this u) as [[this' u'] c].
  cbn [fst snd]. destruct (run names ns this' u') as [[this'' u''] cs]. reflexivity.
Qed.

Lemma run_app names ns1 : forall ns2 this u,
  run names (ns1 ++ ns2) this u =
  (final_listener (run names ns2 (final_listener (run names ns1 this u))
                                 (final_host (run names ns1 this u))),
   final_host (run names ns2 (final_listener (run names ns1 this u))
                             (final_host (run names ns1 this u))),
   completions (run names ns1 this u)
     ++ completions (run names ns2 (final_listener (run names ns1 this u))
                                   (final_host (run names ns1 this u)))).
Proof.
  induction ns1 as [|n ns1 IH]; intros ns2 this u.
  - cbn [app run final_listener final_host completions fst snd]. apply run_snoc_shape.
  - rewrite <- app_comm_cons. rewrite !run_cons. rewrite IH.
    cbn [final_listener final_host completions fst snd app]. reflexivity.
Qed.



(** ** Which handler can throw *)

Lemma resolve_after_step names n this u :
  resolve (fst (fst (handle_notification names n this u))) = None <->
  resolve this = None /\ is_Start n = false.
Proof.
  destruct n as [t|f|]; simpl.
  - split; [discriminate|intros [_ H]; discriminate].
  - unfold checkFile. destruct (progress this); simpl; tauto.
  - unfold endCheckFiles. destruct (resolve this); simpl; split; try tauto;
      intros [H _]; discriminate.
Qed.

Lemma throw_position names ns : forall this u i e,
  nth_error (completions (run names ns this u)) i = Some (Throw e) <->
  resolve this = None /\ nth_error ns i = Some End /\
  existsb is_Start (firstn i ns) = false /\
  e = TypeError "this.resolve is not a function".
Proof.
  induction ns as [|n ns IH]; intros this u i e.
  - cbn [run completions snd]. destruct i; simpl; split; try discriminate;
      intros [_ [H _]]; discriminate.
  - rewrite run_cons. cbn [completions snd]. destruct i as [|i].
    + cbn [nth_error firstn existsb]. destruct n as [t|f|]; simpl.
      * split; [discriminate|intros [_ [H _]]; discriminate].
      * unfold checkFile. destruct (progress this); simpl;
          (split; [discriminate|intros [_ [H _]]; discriminate]).
      * unfold endCheckFiles. destruct (resolve this) as [r|]; simpl.
        -- split; [discriminate|intros [H _]; discriminate].
        -- split.
           ++ intros H. injection H as <-. auto.
           ++ intros [_ [_ [_ ->]]]. reflexivity.
    + cbn [nth_error firstn existsb]. rewrite IH, resolve_after_step.
      rewrite orb_false_iff. tauto.
Qed.

(** X2.  In any sequence of notifications handled by a fresh listener,
    the handler of the notification at position [i] throws if and only if
    that notification is an end and no start came before it; what it
    throws is the [TypeError] of calling the undefined [resolve].  Starts
    and increments never throw, and no end throws once a start has been
    received. *)
Theorem throws_exactly_on_end_before_first_start names ns i e :
  nth_error (completions (run names ns new_progressListener host0)) i = Some (Throw e) <->
  nth_error ns i = Some End /\
  existsb is_Start (firstn i ns) = false /\
  e = TypeError "this.resolve is not a function".
Proof.
  rewrite throw_position. cbn [resolve new_progressListener]. tauto.
Qed.

(** ** Complete runs *)

Lemma count_acquire_reports h fs : forall c n, count_acquire (reports h c n fs) = 0%nat.
Proof. induction fs as [|f fs IH]; intros c n; simpl; auto. Qed.

Lemma count_releases_reports h fs : forall c n, count_releases (reports h c n fs) = 0%nat.
Proof. induction fs as [|f fs IH]; intros c n; simpl; auto. Qed.

Lemma count_releases_app l1 l2 :
  count_releases (l1 ++ l2) = (count_releases l1 + count_releases l2)%nat.
Proof.
  induction l1 as [|e l1 IH]; [reflexivity|].
  destruct e; simpl; rewrite IH; lia.
Qed.

Lemma run_complete_run names T fs this u :
  pending u = [] ->
  run names (complete_run (T, fs)) this u =
  (mkListener 0 0 None (Some (next u)),
   mkHost (S (next u)) []
          (log u ++ Acquire (next u) (title names T) 15 :: reports (next u) 0 T fs
                 ++ [CallResolve (next u); Release (next u)]),
   Normal :: repeat Normal (List.length fs) ++ [Normal]).
Proof.
  intros Hp. unfold complete_run. cbn [fst snd].
  rewrite app_comm_cons, run_app, run_start_increments.
  cbn [final_listener final_host completions fst snd run handle_notification].
  unfold endCheckFiles, call_resolve. cbn [resolve pending mem next log].
  rewrite Nat.eqb_refl. cbn [orb remove_handle]. rewrite Nat.eqb_refl, Hp.
  cbn [remove_handle]. rewrite <- app_assoc. reflexivity.
Qed.

Lemma run_complete_runs names runs : forall this u,
  pending u = [] ->
  let r := run names (flat_map complete_run runs) this u in
  pending (final_host r) = [] /\
  next (final_host r) = (next u + List.length runs)%nat /\
  count_acquire (log (final_host r)) = (count_acquire (log u) + List.length runs)%nat /\
  count_releases (log (final_host r)) = (count_releases (log u) + List.length runs)%nat /\
  Forall (fun c => c = Normal) (completions r) /\
  (runs <> [] -> shape (final_listener r) = (0, 0, false, true)).
Proof.
  induction runs as [|[T fs] runs IH]; intros this u Hp r.
  - unfold r. cbn [flat_map run final_host final_listener completions fst snd List.length].
    rewrite !Nat.add_0_r. repeat split; auto. intros H. congruence.
  - unfold r. cbn [flat_map]. rewrite run_app, (run_complete_run names T fs this u Hp).
    cbn [final_listener final_host completions fst snd].
    set (this1 := mkListener 0 0 None (Some (next u))).
    set (u1 := mkHost (S (next u)) []
                 (log u ++ Acquire (next u) (title names T) 15 :: reports (next u) 0 T fs
                        ++ [CallResolve (next u); Release (next u)])).
    destruct (IH this1 u1 eq_refl) as [I1 [I2 [I3 [I4 [I5 I6]]]]].
    split; [exact I1|].
    split; [rewrite I2; unfold u1; cbn [next List.length]; lia|].
    split.
    { rewrite I3. unfold u1. cbn [log List.length].
      rewrite count_acquire_app. cbn [count_acquire].
      rewrite count_acquire_app, count_acquire_reports. simpl. lia. }
    split.
    { rewrite I4. unfold u1. cbn [log List.length].
      rewrite count_releases_app. cbn [count_releases].
      rewrite count_releases_app, count_releases_reports. simpl. lia. }
    split.
    { constructor; [reflexivity|]. apply Forall_app. split; [|exact I5].
      apply Forall_app. split; [|repeat constructor].
      apply Forall_forall. intros c Hc. apply repeat_spec in Hc. exact Hc. }
    intros _. destruct runs as [|r0 runs']; [reflexivity|].
    apply I6. discriminate.
Qed.

(** X3.  Complete runs compose: after any number of runs, each a start,
    any increments and an end, with any totals, no handler has thrown, no
    surface is left open, each run acquired one surface and released one,
    and the listener is idle again with the counts back at 0. *)
Theorem complete_runs_leave_nothing_open names runs :
  let r := run names (flat_map complete_run runs) new_progressListener host0 in
  Forall (fun c => c = Normal) (completions r) /\
  pending (final_host r) = [] /\
  count_acquire (log (final_host r)) = List.length runs /\
  count_releases (log (final_host r)) = List.length runs /\
  countChecked (final_listener r) = 0 /\ nFiles (final_listener r) = 0 /\
  progress (final_listener r) = None.
Proof.
  intros r.
  destruct (run_complete_runs names runs new_progressListener host0 eq_refl)
    as [I1 [I2 [I3 [I4 [I5 I6]]]]].
  fold r in I1, I2, I3, I4, I5, I6.
  split; [exact I5|]. split; [exact I1|].
  split; [rewrite I3; reflexivity|]. split; [rewrite I4; reflexivity|].
  destruct runs as [|r0 runs'].
  - unfold r. cbn. auto.
  - assert (S : shape (final_listener r) = (0, 0, false, true)) by (apply I6; discriminate).
    unfold shape in S. injection S as S1 S2 S3 S4.
    split; [exact S1|]. split; [exact S2|].
    destruct (progress (final_listener r)); [discriminate|reflexivity].
Qed.

(** ** Discipline of the trace *)

Lemma scan_snoc l e : scan (l ++ [e]) = scan_step (scan l) e.
Proof. unfold scan. rewrite fold_left_app. reflexivity. Qed.

Lemma scan_step_track names n this u :
  wf_listener this u ->
  (progress this = None -> forall r, resolve this = Some r -> mem r (pending u) = false) ->
  scan (log u) = Some (progress this) ->
  let this' := fst (fst (handle_notification names n this u)) in
  let u' := snd (fst (handle_notification names n this u)) in
  (progress this' = None -> forall r, resolve this' = Some r -> mem r (pending u') = false) /\
  scan (log u') = Some (progress this').
Proof.
  intros W I S. destruct n as [t|f|]; cbn [handle_notification].
  - unfold startCheckFiles, withProgress. cbn [fst snd progress resolve pending log].
    split; [discriminate|]. rewrite scan_snoc, S. reflexivity.
  - unfold checkFile. destruct (progress this) as [p|] eqn:Hp.
    + unfold emit. cbn [fst snd progress resolve pending log].
      split; [discriminate|]. rewrite scan_snoc, S. cbn [scan_step]. rewrite Nat.eqb_refl. reflexivity.
    + cbn [fst snd]. rewrite Hp. split; [exact I|exact S].
  - unfold endCheckFiles. destruct (resolve this) as [r|] eqn:Hr.
    + cbn [fst snd progress resolve]. destruct (progress this) as [h|] eqn:Hp.
      * destruct (W h Hp) as [E [M _]]. rewrite Hr in E. injection E as ->.
        unfold call_resolve. rewrite M. cbn [pending log]. split.
        -- intros _ r E. injection E as <-. apply mem_remove_same.
        -- change (log u ++ [CallResolve h; Release h])
             with (log u ++ [CallResolve h] ++ [Release h]).
           rewrite app_assoc, !scan_snoc, S. cbn [scan_step]. rewrite Nat.eqb_refl. reflexivity.
      * pose proof (I eq_refl r eq_refl) as M.
        unfold call_resolve. rewrite M. unfold emit. cbn [pending log]. split.
        -- intros _ r' E. injection E as <-. exact M.
        -- rewrite scan_snoc, S. reflexivity.
    + cbn [fst snd progress resolve]. split; [intros _ r E; discriminate|].
      destruct (progress this) as [h|] eqn:Hp; [|exact S].
      destruct (W h Hp) as [E _]. congruence.
Qed.

Lemma scan_run names ns : forall this u,
  wf_listener this u ->
  (progress this = None -> forall r, resolve this = Some r -> mem r (pending u) = false) ->
  scan (log u) = Some (progress this) ->
  scan (log (final_host (run names ns this u))) =
    Some (progress (final_listener (run names ns this u))).
Proof.
  induction ns as [|n ns IH]; intros this u W I S; [exact S|].
  rewrite run_cons. cbn [final_listener final_host fst snd].
  destruct (scan_step_track names n this u W I S) as [I' S'].
  apply IH; [apply wf_step; exact W|exact I'|exact S'].
Qed.

(** X4.  The trace of any sequence of notifications handled by a fresh
    listener keeps a discipline: every report goes to the surface that
    was acquired last and is not released yet, every release closes that
    same surface, so that a surface is never reported to after its
    release; and when the sequence is over, [progress] is that surface if
    there is one, and null otherwise. *)
Theorem reports_only_to_latest_open_surface names ns :
  scan (log (final_host (run names ns new_progressListener host0))) =
    Some (progress (final_listener (run names ns new_progressListener host0))).
Proof.
  apply scan_run.
  - apply wf_new.
  - intros _ r E. discriminate.
  - reflexivity.
Qed.

(** ** What the user is shown *)

Lemma reported_files_app l1 l2 :
  reported_files (l1 ++ l2) = reported_files l1 ++ reported_files l2.
Proof. unfold reported_files. apply flat_map_app. Qed.

Lemma surfaces_app l1 l2 : surfaces (l1 ++ l2) = surfaces l1 ++ surfaces l2.
Proof. unfold surfaces. apply flat_map_app. Qed.

Lemma log_step names n this u :
  log (snd (fst (handle_notification names n this u))) =
  log u ++
  match n with
  | Start t => [Acquire (next u) (title names t) 15]
  | Increment f =>
      match progress this with
      | Some p =>
          [Report p f
             (js_sub (percentComplete (mkListener (countChecked this + 1) (nFiles this)
                                                  (progress this) (resolve this)))
                     (percentComplete this))]
      | None => []
      end
  | End =>
      match resolve this with
      | Some r => if mem r (pending u) then [CallResolve r; Release r] else [CallResolve r]
      | None => []
      end
  end.
Proof.
  destruct n as [t|f|]; cbn [handle_notification].
  - reflexivity.
  - unfold checkFile. destruct (progress this); cbn [fst snd]; [reflexivity|].
    rewrite app_nil_r. reflexivity.
  - unfold endCheckFiles. destruct (resolve this) as [r|]; cbn [fst snd].
    + unfold call_resolve. destruct (mem r (pending u)); reflexivity.
    + rewrite app_nil_r. reflexivity.
Qed.

Lemma progress_step names n this u :
  is_some (progress (fst (fst (handle_notification names n this u)))) =
  match n with
  | Start _ => true
  | Increment _ => is_some (progress this)
  | End => false
  end.
Proof.
  destruct n as [t|f|]; cbn [handle_notification].
  - reflexivity.
  - unfold checkFile. destruct (progress this) as [p|] eqn:E; cbn [fst snd progress];
      rewrite ?E; reflexivity.
  - unfold endCheckFiles. destruct (resolve this); reflexivity.
Qed.

Lemma reported_files_run names ns : forall this u,
  reported_files (log (final_host (run names ns this u))) =
  reported_files (log u) ++ files_while_active (is_some (progress this)) ns.
Proof.
  induction ns as [|n ns IH]; intros this u.
  - cbn [run final_host fst snd files_while_active]. rewrite app_nil_r. reflexivity.
  - rewrite run_cons. cbn [final_host fst snd]. rewrite IH, log_step, progress_step.
    rewrite reported_files_app, <- app_assoc. f_equal.
    destruct n as [t|f|]; cbn [files_while_active]; try reflexivity.
    + destruct (progress this); reflexivity.
    + destruct (resolve this) as [r|]; [|reflexivity].
      destruct (mem r (pending u)); reflexivity.
Qed.

(** X5.  The file names reported to the user are exactly those of the
    increments received between a start and the next end, in the order
    received: no such increment is dropped or reported twice, and an
    increment received before the first start or after an end is never
    reported. *)
Theorem files_reported_are_those_received_while_active names ns :
  reported_files (log (final_host (run names ns new_progressListener host0))) =
  files_while_active false ns.
Proof. rewrite reported_files_run. reflexivity. Qed.

Lemma surfaces_run names ns : forall this u,
  surfaces (log (final_host (run names ns this u))) =
  surfaces (log u) ++ map (fun t => (title names t, 15)) (totals ns).
Proof.
  induction ns as [|n ns IH]; intros this u.
  - cbn [run final_host fst snd totals flat_map map]. rewrite app_nil_r. reflexivity.
  - rewrite run_cons. cbn [final_host fst snd]. rewrite IH, log_step.
    rewrite surfaces_app, <- app_assoc. f_equal.
    destruct n as [t|f|]; cbn [totals flat_map]; try reflexivity.
    + destruct (progress this); reflexivity.
    + destruct (resolve this) as [r|]; [|reflexivity].
      destruct (mem r (pending u)); reflexivity.
Qed.

(** X6.  The surfaces shown are one per start received, in order, each in
    the window location (15) with the title the descriptor builds from the
    total of its start; increments and ends never open a surface. *)
Theorem one_surface_per_start_with_its_title names ns :
  surfaces (log (final_host (run names ns new_progressListener host0))) =
  map (fun t => (title names t, 15)) (totals ns).
Proof. rewrite surfaces_run. reflexivity. Qed.

(** ** The wiring of any descriptor *)

Lemma update_app_last x y l : update (List.length l) x (l ++ [y]) = l ++ [x].
Proof. induction l as [|z l IH]; [reflexivity|]. simpl. rewrite IH. reflexivity. Qed.

Lemma nth_error_app_last (x : progressListener) l : nth_error (l ++ [x]) (List.length l) = Some x.
Proof. induction l as [|z l IH]; [reflexivity|exact IH]. Qed.

Lemma notify_wired names obj n w this :
  lookup (startEvent names) (handlers w) = Some (OnStart names obj) ->
  lookup (incrementEvent names) (handlers w) = Some (OnIncrement obj) ->
  lookup (endEvent names) (handlers w) = Some (OnEnd obj) ->
  nth_error (heap w) obj = Some this ->
  notify (fst (message_of names n)) (snd (message_of names n)) w =
    Some (mkWorld (update obj (fst (fst (handle_notification names n this (ui w)))) (heap w))
                  (handlers w)
                  (snd (fst (handle_notification names n this (ui w)))),
          snd (handle_notification names n this (ui w))).
Proof.
  intros L1 L2 L3 Hn.
  destruct n as [t|f|]; unfold notify; cbn [message_of fst snd].
  - rewrite L1. unfold invoke. rewrite Hn. cbn [handle_notification].
    destruct (startCheckFiles names t this (ui w)) as [[this' u'] c']. reflexivity.
  - rewrite L2. unfold invoke. rewrite Hn. cbn [handle_notification].
    destruct (checkFile f this (ui w)) as [[this' u'] c']. reflexivity.
  - rewrite L3. unfold invoke. rewrite Hn. cbn [handle_notification].
    destruct (endCheckFiles this (ui w)) as [[this' u'] c']. reflexivity.
Qed.

Lemma deliver_wired names obj ns : forall w this,
  lookup (startEvent names) (handlers w) = Some (OnStart names obj) ->
  lookup (incrementEvent names) (handlers w) = Some (OnIncrement obj) ->
  lookup (endEvent names) (handlers w) = Some (OnEnd obj) ->
  nth_error (heap w) obj = Some this ->
  deliver (map (message_of names) ns) w =
    Some (mkWorld (update obj (final_listener (run names ns this (ui w))) (heap w))
                  (handlers w)
                  (final_host (run names ns this (ui w))),
          completions (run names ns this (ui w))).
Proof.
  induction ns as [|n ns IH]; intros w this L1 L2 L3 Hn.
  - cbn [map deliver run final_listener final_host completions fst snd].
    rewrite (update_same _ _ _ Hn). destruct w; reflexivity.
  - cbn [map deliver].
    pose proof (notify_wired names obj n w this L1 L2 L3 Hn) as N.
    destruct (message_of names n) as [m p]. cbn [fst snd] in N. rewrite N.
    rewrite run_cons. cbn [final_listener final_host completions fst snd].
    set (this1 := fst (fst (handle_notification names n this (ui w)))).
    set (u1 := snd (fst (handle_notification names n this (ui w)))).
    rewrite (IH (mkWorld (update obj this1 (heap w)) (handlers w) u1) this1 L1 L2 L3
                (nth_error_update_same _ _ _ _ Hn)).
    cbn [heap handlers ui]. rewrite update_update. reflexivity.
Qed.

Lemma lookup_created names w :
  distinct_events names ->
  let w' := createProgressListener names w in
  let obj := List.length (heap w) in
  lookup (startEvent names) (handlers w') = Some (OnStart names obj) /\
  lookup (incrementEvent names) (handlers w') = Some (OnIncrement obj) /\
  lookup (endEvent names) (handlers w') = Some (OnEnd obj).
Proof.
  intros [D1 [D2 D3]]. cbn [createProgressListener onNotification handlers heap lookup].
  rewrite !String.eqb_refl.
  apply String.eqb_neq in D1, D2, D3. rewrite D1, D2, D3. auto.
Qed.

(** X7.  [createProgressListener], for any descriptor whose three
    identifiers are pairwise distinct and in any state of the client:
    the methods registered before keep their handlers unless they bear
    one of the three identifiers, the listeners created before stay in
    place, and any sequence of notifications sent under the descriptor's
    identifiers is handled by the new listener as [run] describes,
    starting from the fresh state, and touches no other listener. *)
Theorem createProgressListener_wires_fresh_listener names w ns :
  distinct_events names ->
  let w1 := createProgressListener names w in
  let r := run names ns new_progressListener (ui w) in
  (forall m, m <> startEvent names -> m <> incrementEvent names -> m <> endEvent names ->
     lookup m (handlers w1) = lookup m (handlers w)) /\
  heap w1 = heap w ++ [new_progressListener] /\
  deliver (map (message_of names) ns) w1 =
    Some (mkWorld (heap w ++ [final_listener r]) (handlers w1) (final_host r),
          completions r).
Proof.
  intros D w1 r.
  split.
  { intros m N1 N2 N3. unfold w1.
    cbn [createProgressListener onNotification handlers lookup].
    apply String.eqb_neq in N1, N2, N3. rewrite N1, N2, N3. reflexivity. }
  split; [reflexivity|].
  destruct (lookup_created names w D) as [L1 [L2 L3]].
  fold w1 in L1, L2, L3.
  rewrite (deliver_wired names (List.length (heap w)) ns w1 new_progressListener L1 L2 L3).
  - subst w1 r. cbn [createProgressListener onNotification heap ui handlers].
    rewrite update_app_last. reflexivity.
  - unfold w1. cbn [createProgressListener onNotification heap].
    apply nth_error_app_last.
Qed.

Lemma createProgressListener_wires_fresh_listener_witness :
  distinct_events checkEvent /\
  deliver (map (message_of checkEvent) [Start 3; Increment "a.fs"; End])
          (createProgressListener checkEvent world0) =
    Some (mkWorld
            ([] ++ [final_listener (run checkEvent [Start 3; Increment "a.fs"; End]
                                        new_progressListener host0)])
            (handlers (createProgressListener checkEvent world0))
            (final_host (run checkEvent [Start 3; Increment "a.fs"; End]
                             new_progressListener host0)),
          completions (run checkEvent [Start 3; Increment "a.fs"; End]
                           new_progressListener host0)).
Proof.
  assert (D : distinct_events checkEvent).
  { repeat split; intros H; vm_compute in H; discriminate. }
  split; [exact D|].
  exact (proj2 (proj2 (createProgressListener_wires_fresh_listener checkEvent world0
                         [Start 3; Increment "a.fs"; End] D))).
Defined.

(** ** Interleaved notifications of the two classes *)

Lemma shape_step names names2 n this u this2 u2 :
  shape this = shape this2 ->
  shape (fst (fst (handle_notification names n this u))) =
  shape (fst (fst (handle_notification names2 n this2 u2))).
Proof.
  unfold shape. intros H. injection H as H1 H2 H3 H4.
  destruct n as [t|f|]; cbn [handle_notification].
  - reflexivity.
  - unfold checkFile.
    destruct (progress this) as [p|] eqn:P, (progress this2) as [p2|] eqn:P2;
      cbn in H3; try discriminate;
      cbn [fst snd countChecked nFiles progress resolve is_some];
      rewrite ?P, ?P2, H1, H2, H4; reflexivity.
  - unfold endCheckFiles.
    destruct (resolve this) as [r|], (resolve this2) as [r2|]; cbn in H4;
      try discriminate; reflexivity.
Qed.

Lemma of_class_cons c c' n l :
  of_class c ((c', n) :: l) = if Bool.eqb c' c then n :: of_class c l else of_class c l.
Proof. unfold of_class. cbn [filter fst]. destruct (Bool.eqb c' c); reflexivity. Qed.

Lemma interleaved_shapes l : forall w a b a0 b0 ua ub,
  handlers w = handlers registry ->
  heap w = [a; b] ->
  shape a = shape a0 -> shape b = shape b0 ->
  exists w' cs a' b',
    deliver (map tagged_message l) w = Some (w', cs) /\
    List.length cs = List.length l /\
    heap w' = [a'; b'] /\
    shape a' = shape (final_listener (run checkEvent (of_class true l) a0 ua)) /\
    shape b' = shape (final_listener (run analyzeEvent (of_class false l) b0 ub)).
Proof.
  induction l as [|[c n] l IH]; intros w a b a0 b0 ua ub Hh Hw Sa Sb.
  - exists w, [], a, b. cbn. auto.
  - cbn [map deliver]. unfold tagged_message at 1. cbn [fst snd].
    rewrite !of_class_cons. destruct c; cbn [class_names Bool.eqb].
    + assert (Hn : nth_error (heap w) 0 = Some a) by (rewrite Hw; reflexivity).
      pose proof (notify_registry checkEvent 0%nat n w a (or_introl eq_refl) Hh Hn) as N.
      destruct (message_of checkEvent n) as [m p]. cbn [fst snd] in N. rewrite N.
      rewrite Hw. cbn [update]. rewrite run_cons. cbn [final_listener fst snd].
      set (a1 := fst (fst (handle_notification checkEvent n a (ui w)))).
      set (u1 := snd (fst (handle_notification checkEvent n a (ui w)))).
      destruct (IH (mkWorld [a1; b] (handlers w) u1) a1 b
                   (fst (fst (handle_notification checkEvent n a0 ua))) b0
                   (snd (fst (handle_notification checkEvent n a0 ua))) ub
                   Hh eq_refl (shape_step _ _ n _ _ _ _ Sa) Sb)
        as [w' [cs [a' [b' [D [Lc [Hw' [Sa' Sb']]]]]]]].
      rewrite D. exists w', (snd (handle_notification checkEvent n a (ui w)) :: cs), a', b'.
      cbn [List.length]. rewrite Lc. auto.
    + assert (Hn : nth_error (heap w) 1 = Some b) by (rewrite Hw; reflexivity).
      pose proof (notify_registry analyzeEvent 1%nat n w b (or_intror eq_refl) Hh Hn) as N.
      destruct (message_of analyzeEvent n) as [m p]. cbn [fst snd] in N. rewrite N.
      rewrite Hw. cbn [update]. rewrite run_cons. cbn [final_listener fst snd].
      set (b1 := fst (fst (handle_notification analyzeEvent n b (ui w)))).
      set (u1 := snd (fst (handle_notification analyzeEvent n b (ui w)))).
      destruct (IH (mkWorld [a; b1] (handlers w) u1) a b1
                   a0 (fst (fst (handle_notification analyzeEvent n b0 ub)))
                   ua (snd (fst (handle_notification analyzeEvent n b0 ub)))
                   Hh eq_refl Sa (shape_step _ _ n _ _ _ _ Sb))
        as [w' [cs [a' [b' [D [Lc [Hw' [Sa' Sb']]]]]]]].
      rewrite D. exists w', (snd (handle_notification analyzeEvent n b (ui w)) :: cs), a', b'.
      cbn [List.length]. rewrite Lc. auto.
Qed.

(** X8.  Notifications of the two classes may arrive interleaved in any
    order.  The client handles all of them, and when they are handled the
    counts of each listener, and whether it holds a surface and a release
    callback, are those it would have had if it had received the
    notifications of its own class alone, with a host of its own. *)
Theorem interleaving_does_not_change_a_class l :
  exists w cs a b,
    deliver (map tagged_message l) registry = Some (w, cs) /\
    List.length cs = List.length l /\
    heap w = [a; b] /\
    shape a = shape (final_listener
                       (run checkEvent (of_class true l) new_progressListener host0)) /\
    shape b = shape (final_listener
                       (run analyzeEvent (of_class false l) new_progressListener host0)).
Proof.
  apply (interleaved_shapes l registry new_progressListener new_progressListener);
    reflexivity.
Qed.

(** ** The bar within a run *)

Lemma zdeltas_nonneg d k : forall c, 0 <= c -> 0 < d ->
  Forall (fun x => 0 <= x) (zdeltas c d k).
Proof.
  induction k as [|k IH]; intros c Hc Hd; cbn [zdeltas]; constructor.
  - pose proof (percent_value_mono c (c + 1) d ltac:(lia) Hd). lia.
  - apply IH; lia.
Qed.

(** X9.  In a run that announces the total [T] and then receives at most
    [T] increments, every increment reported to the bar is non-negative,
    their sum is the percentage the listener holds after the last one, and
    that sum is at most 99: the bar is never filled by the increments of
    such a run. *)
Theorem bar_not_filled_within_total names T fs this u :
  0 <= T <= MAX_SAFE_INTEGER ->
  Z.of_nat (List.length fs) <= T ->
  let r := run names (Start T :: map Increment fs) this u in
  exists ds : list Z,
    increments (log (final_host r)) = increments (log u) ++ map Some ds /\
    Forall (fun d => 0 <= d) ds /\
    percentComplete (final_listener r) = Some (fold_right Z.add 0 ds) /\
    fold_right Z.add 0 ds <= 99.
Proof.
  intros HT Hk r. unfold MAX_SAFE_INTEGER in HT.
  assert (P53 : 2 ^ 53 = 9007199254740992) by reflexivity.
  exists (zdeltas 0 (T + 1) (List.length fs)).
  unfold r. rewrite run_start_increments. cbn [final_host final_listener fst snd log].
  split.
  { rewrite increments_app. f_equal.
    change (Acquire (next u) (title names T) 15 :: reports (next u) 0 T fs)
      with ([Acquire (next u) (title names T) 15] ++ reports (next u) 0 T fs).
    rewrite increments_app. cbn [increments flat_map app].
    apply increments_reports; lia. }
  split; [apply zdeltas_nonneg; lia|].
  rewrite zdeltas_sum, percent_value_zero, Z.sub_0_r, Z.add_0_l.
  split.
  - rewrite percentComplete_at. cbn [countChecked nFiles].
    apply percent_at_total; lia.
  - pose proof (percent_value_mono (Z.of_nat (List.length fs)) T (T + 1) ltac:(lia) ltac:(lia)).
    pose proof (percent_value_below T ltac:(lia)). lia.
Qed.

Lemma bar_not_filled_within_total_witness :
  exists ds : list Z,
    increments (log (final_host (run checkEvent (Start 3 :: map Increment ["a.fs"; "b.fs"]%string)
                                     new_progressListener host0))) =
      increments (log host0) ++ map Some ds /\
    Forall (fun d => 0 <= d) ds /\
    percentComplete (final_listener (run checkEvent (Start 3 :: map Increment ["a.fs"; "b.fs"]%string)
                                         new_progressListener host0)) =
      Some (fold_right Z.add 0 ds) /\
    fold_right Z.add 0 ds <= 99.
Proof.
  apply (bar_not_filled_within_total checkEvent 3 ["a.fs"; "b.fs"]%string
           new_progressListener host0).
  - unfold MAX_SAFE_INTEGER. lia.
  - simpl. lia.
Defined.

(** ** A start that announces -1 *)

Lemma percent_at_minus_one k : 0 <= k <= 2 ^ 53 -> percent_at k (-1) = None.
Proof.
  intros Hk. destruct (Z.eq_dec k 0) as [->|N]; [reflexivity|].
  destruct (Z2SF_spec k ltac:(lia)) as [m [e [E _]]].
  unfold percent_at, percentComplete. cbn [countChecked nFiles].
  change (-1 + 1) with 0. change (Z2SF 0) with (S754_zero false).
  rewrite E, Z2SF_100. reflexivity.
Qed.

Lemma increments_reports_minus_one h fs : forall c,
  0 <= c -> c + Z.of_nat (List.length fs) <= 2 ^ 53 ->
  increments (reports h c (-1) fs) = repeat None (List.length fs).
Proof.
  induction fs as [|f fs IH]; intros c Hc Hb; [reflexivity|].
  cbn [reports List.length repeat]. cbn [List.length] in Hb.
  change (Report h f (js_sub (percent_at (c + 1) (-1)) (percent_at c (-1)))
            :: reports h (c + 1) (-1) fs)
    with ([Report h f (js_sub (percent_at (c + 1) (-1)) (percent_at c (-1)))]
            ++ reports h (c + 1) (-1) fs).
  rewrite increments_app, IH by lia.
  rewrite (percent_at_minus_one (c + 1)) by lia. reflexivity.
Qed.

(** X10.  The total is not validated.  After a start that announces -1
    the denominator [nFiles + 1] is zero: the percentage is not a finite
    number after any number of increments, and every increment reported
    to the bar is not a finite number either. *)
Theorem start_with_minus_one_reports_no_number names fs this u :
  Z.of_nat (List.length fs) <= 2 ^ 53 ->
  let r := run names (Start (-1) :: map Increment fs) this u in
  increments (log (final_host r)) = increments (log u) ++ repeat None (List.length fs) /\
  percentComplete (final_listener r) = None.
Proof.
  intros Hb r. unfold r. rewrite run_start_increments.
  cbn [final_host final_listener fst snd log]. split.
  - rewrite increments_app. f_equal.
    change (Acquire (next u) (title names (-1)) 15 :: reports (next u) 0 (-1) fs)
      with ([Acquire (next u) (title names (-1)) 15] ++ reports (next u) 0 (-1) fs).
    rewrite increments_app. cbn [increments flat_map app].
    apply increments_reports_minus_one; lia.
  - rewrite percentComplete_at. cbn [countChecked nFiles].
    apply percent_at_minus_one. lia.
Qed.

Lemma start_with_minus_one_reports_no_number_witness :
  increments (log (final_host (run checkEvent (Start (-1) :: map Increment ["a.fs"; "b.fs"]%string)
                                   new_progressListener host0))) =
    increments (log host0) ++ repeat None (List.length ["a.fs"; "b.fs"]%string) /\
  percentComplete (final_listener (run checkEvent (Start (-1) :: map Increment ["a.fs"; "b.fs"]%string)
                                       new_progressListener host0)) = None.
Proof.
  apply (start_with_minus_one_reports_no_number checkEvent ["a.fs"; "b.fs"]%string
           new_progressListener host0).
  simpl. lia.
Defined.

(** ** Totals one below a power of two *)

Lemma Qrnd_dyadic p m e : 0 < p -> 0 < m <= 2 ^ p ->
  (Qrnd p (inject_Z m * pow2 e) == inject_Z m * pow2 e)%Q.
Proof.
  intros Hp Hm.
  assert (Px : (0 < inject_Z m * pow2 e)%Q).
  { apply Qmult_lt_0_compat; [apply inject_Z_pos; lia|apply pow2_pos]. }
  assert (Mag : Qmag (inject_Z m * pow2 e) = Zdigits2 m + e).
  { apply scaled_mag; [lia| |]; lra. }
  destruct (Zdigits2_bounds m ltac:(lia)) as [B1 B2].
  pose proof (Zdigits2_pos m ltac:(lia)) as Dm.
  destruct (Z.le_gt_cases (Zdigits2 m) p) as [L|G].
  - apply (Qrnd_exact p _ (m * 2 ^ (p - Zdigits2 m)) Px).
    rewrite Mag, inject_Z_mult, <- pow2_Z by lia.
    rewrite <- Qmult_assoc, <- pow2_add.
    replace (e + (p - (Zdigits2 m + e))) with (p - Zdigits2 m) by lia. reflexivity.
  - assert (2 ^ p <= 2 ^ (Zdigits2 m - 1)) by (apply Z.pow_le_mono_r; lia).
    assert (Ek : m = 2 ^ p) by lia.
    assert (Ed : Zdigits2 m = p + 1).
    { apply Zdigits2_unique; [lia|]. replace (p + 1 - 1) with p by lia.
      split; [lia|]. rewrite Ek. apply Z.pow_lt_mono_r; lia. }
    apply (Qrnd_exact p _ (2 ^ (p - 1)) Px).
    rewrite Mag, Ed. rewrite Ek at 1. rewrite <- !pow2_Z by lia.
    rewrite <- Qmult_assoc, <- !pow2_add.
    replace (p + (e + (p - (p + 1 + e)))) with (p - 1) by lia. reflexivity.
Qed.

Lemma percent_value_pow2 j k : 0 <= j -> 0 < k -> 100 * k <= 2 ^ 53 ->
  percent_value k (2 ^ j) = 100 * k / 2 ^ j.
Proof.
  intros Hj Hk Hb.
  assert (Pj : 0 < 2 ^ j) by (apply Z.pow_pos_nonneg; lia).
  unfold percent_value, percent_of_quotient.
  set (x := (inject_Z k / inject_Z (2 ^ j))%Q).
  assert (Px : (0 < x)%Q) by (apply Qdiv_pos; lia).
  assert (E1 : (x == inject_Z k * pow2 (- j))%Q).
  { unfold x, Qdiv. rewrite pow2_opp, pow2_Z by lia. reflexivity. }
  assert (R1 : (Qrnd prec x == inject_Z k * pow2 (- j))%Q).
  { rewrite (Qrnd_comp prec prec_pos x _ Px E1).
    apply Qrnd_dyadic; [reflexivity|]. unfold prec. lia. }
  set (y := (Qrnd prec x * 100)%Q).
  assert (E2 : (y == inject_Z (100 * k) * pow2 (- j))%Q).
  { unfold y. rewrite R1, inject_Z_mult. change (inject_Z 100) with 100%Q. ring. }
  assert (Py : (0 < y)%Q).
  { rewrite E2. apply Qmult_lt_0_compat; [apply inject_Z_pos; lia|apply pow2_pos]. }
  assert (R2 : (Qrnd prec y == inject_Z (100 * k) * pow2 (- j))%Q).
  { rewrite (Qrnd_comp prec prec_pos y _ Py E2).
    apply Qrnd_dyadic; [reflexivity|]. unfold prec. lia. }
  rewrite Zdiv_Qdiv. apply Qfloor_comp. rewrite R2.
  unfold Qdiv. rewrite pow2_opp, pow2_Z by lia. reflexivity.
Qed.

(** X11.  When the total is one below a power of two, the denominator
    [nFiles + 1] is a power of two and the double computation loses
    nothing: for counts [k] with [100 * k <= 2^53] the percentage is the
    exact [floor (100 * k / (T + 1))], the formula on exact numbers. *)
Theorem percent_exact_when_denominator_is_power_of_two j k pr rs :
  0 <= j <= 53 -> 0 <= k -> 100 * k <= 2 ^ 53 ->
  percentComplete (mkListener k (2 ^ j - 1) pr rs) = Some (percent_spec k (2 ^ j - 1)) /\
  percent_spec k (2 ^ j - 1) = 100 * k / 2 ^ j.
Proof.
  intros Hj Hk Hb.
  assert (Pj : 0 < 2 ^ j) by (apply Z.pow_pos_nonneg; lia).
  assert (Uj : 2 ^ j <= 2 ^ 53) by (apply Z.pow_le_mono_r; lia).
  assert (S : percent_spec k (2 ^ j - 1) = 100 * k / 2 ^ j).
  { rewrite percent_spec_div by lia. replace (2 ^ j - 1 + 1) with (2 ^ j) by lia. reflexivity. }
  split; [|exact S].
  rewrite percentComplete_at. cbn [countChecked nFiles].
  rewrite percent_at_total by lia. f_equal.
  replace (2 ^ j - 1 + 1) with (2 ^ j) by lia. rewrite S.
  destruct (Z.eq_dec k 0) as [->|N].
  - rewrite percent_value_zero. reflexivity.
  - apply percent_value_pow2; lia.
Qed.

Lemma percent_exact_when_denominator_is_power_of_two_witness :
  percentComplete (mkListener 3 (2 ^ 3 - 1) None None) = Some (percent_spec 3 (2 ^ 3 - 1)) /\
  percent_spec 3 (2 ^ 3 - 1) = 100 * 3 / 2 ^ 3.
Proof.
  apply (percent_exact_when_denominator_is_power_of_two 3 3 None None); lia.
Defined.

(** ** Which ends release a surface *)

Lemma count_releases_run names ns : forall this u,
  wf_listener this u ->
  (progress this = None -> forall r, resolve this = Some r -> mem r (pending u) = false) ->
  scan (log u) = Some (progress this) ->
  count_releases (log (final_host (run names ns this u))) =
  (count_releases (log u) + ends_while_active (is_some (progress this)) ns)%nat.
Proof.
  induction ns as [|n ns IH]; intros this u W I S.
  - cbn [run final_host fst snd ends_while_active]. lia.
  - rewrite run_cons. cbn [final_host fst snd].
    destruct (scan_step_track names n this u W I S) as [I' S'].
    rewrite (IH _ _ (wf_step names n this u W) I' S').
    rewrite log_step, progress_step, count_releases_app.
    destruct n as [t|f|]; cbn [ends_while_active].
    + cbn [count_releases]. lia.
    + destruct (progress this); cbn [count_releases]; lia.
    + destruct (progress this) as [h|] eqn:P.
      * destruct (W h P) as [E [M _]]. rewrite E, M. cbn [count_releases is_some]. lia.
      * destruct (resolve this) as [r|] eqn:R; cbn [count_releases is_some]; [|lia].
        rewrite (I eq_refl r eq_refl). cbn [count_releases]. lia.
Qed.

(** X12.  A surface is released by an end exactly when the end arrives
    while a start is open: in any sequence handled by a fresh listener the
    number of releases is the number of such ends.  Every other end, and
    every start that comes while an earlier start is open, releases
    nothing. *)
Theorem releases_are_the_ends_received_while_active names ns :
  count_releases (log (final_host (run names ns new_progressListener host0))) =
  ends_while_active false ns.
Proof.
  rewrite count_releases_run.
  - reflexivity.
  - apply wf_new.
  - intros _ r E. discriminate.
  - reflexivity.
Qed.

(** ** The percentage as a function of the total *)

Lemma percent_value_antitone k d d' :
  0 <= k -> 0 < d <= d' -> percent_value k d' <= percent_value k d.
Proof.
  intros Hk Hd. destruct (Z.eq_dec k 0) as [->|N].
  - rewrite !percent_value_zero. lia.
  - rewrite !percent_value_unfold. apply percent_of_quotient_mono.
    + apply Qdiv_pos; lia.
    + pose proof (inject_Z_pos d ltac:(lia)) as Pd.
      pose proof (inject_Z_pos d' ltac:(lia)) as Pd'.
      apply Qle_shift_div_l; [exact Pd|].
      assert (E : (inject_Z k / inject_Z d' * inject_Z d ==
                   inject_Z (k * d) / inject_Z d')%Q).
      { rewrite inject_Z_mult. field. lra. }
      rewrite E. apply Qle_shift_div_r; [exact Pd'|].
      rewrite <- inject_Z_mult, <- Zle_Qle. nia.
Qed.

(** X13.  For the same count, a larger total never gives a larger
    percentage: [percentComplete] is non-increasing in [nFiles], as the
    exact formula is, in spite of the two roundings. *)
Theorem percent_not_larger_for_larger_total k T T' pr rs pr' rs' :
  0 <= k <= 2 ^ 53 -> 0 <= T <= T' -> T' <= MAX_SAFE_INTEGER ->
  exists p p',
    percentComplete (mkListener k T pr rs) = Some p /\
    percentComplete (mkListener k T' pr' rs') = Some p' /\
    p' <= p.
Proof.
  intros Hk HT HT'. unfold MAX_SAFE_INTEGER in HT'.
  assert (P53 : 2 ^ 53 = 9007199254740992) by reflexivity.
  exists (percent_value k (T + 1)), (percent_value k (T' + 1)).
  rewrite !percentComplete_at. cbn [countChecked nFiles].
  rewrite !percent_at_total by lia.
  split; [reflexivity|]. split; [reflexivity|].
  apply percent_value_antitone; lia.
Qed.

Lemma percent_not_larger_for_larger_total_witness :
  exists p p',
    percentComplete (mkListener 29 99 None None) = Some p /\
    percentComplete (mkListener 29 199 None None) = Some p' /\
    p' <= p.
Proof.
  apply (percent_not_larger_for_larger_total 29 99 199 None None None None);
    unfold MAX_SAFE_INTEGER; lia.
Defined.

(** ** The titles *)




